(** * LOOT: plugin registry, concurrent loader and sort session

    A shallow embedding of [src/backend/game/game.cpp] (class [Game]:
    [addPlugin], [IsPluginActive], [LoadPlugins]) and, modelled from the
    specification, of the plugin sorter that the tests in
    [src/tests/backend/test_plugin_sorter.h] exercise.

    Conventions.
    - [std::unordered_map<std::string, Plugin>] is a [gmap string Plugin].
    - [std::multimap<uintmax_t, std::string>] is a list of pairs kept in
      ascending key order, entries of equal key in insertion order.
    - [uintmax_t] is a [Z] in the range [0 .. 2^64), wrap-around written out.
    - [size_t] counters that cannot overflow here (numbers of plugins and of
      threads) are [nat].
    - Functions of the repository that are not part of the modelled files
      ([boost::locale::to_lower], [Plugin::IsValid], the [Plugin]
      constructor, [LoadOrderHandler::IsPluginActive]) are section
      variables. *)

From Stdlib Require Import ZArith Lia Relations Ascii String.
From stdpp Require Import base option list sorting gmap strings.

Set Default Proof Using "Type".

Open Scope string_scope.
Open Scope list_scope.
Open Scope nat_scope.

(** ** Data model *)

(** The facts of a loaded plugin that the modelled code reads:
    [Plugin::Name()], [Plugin::IsActive()], and for the sorter the master
    flag and the masters named in the file header. *)
Record Plugin := mkPlugin {
  Name : string;
  IsActive : bool;
  IsMaster : bool;
  Masters : list string
}.

(** Ordering metadata of one plugin (a masterlist or userlist entry). *)
Record PluginMetadata := mkMetadata {
  md_requirements : gset string;
  md_loadAfter : gset string;
  md_priority : Z;
  md_isPriorityGlobal : bool;
  md_messages : list string
}.

(** The members of [Game] (with those of its bases [GameSettings],
    [LoadOrderHandler] and [GameCache]) that the modelled code touches. *)
Record Game := mkGame {
  plugins : gmap string Plugin;
  _pluginsFullyLoaded : bool;
  masterlist : gmap string PluginMetadata;
  userlist : gmap string PluginMetadata;
  messages : list string;
  loadOrder : list string;
  masterFile : string
}.

Definition set_plugins (g : Game) (reg : gmap string Plugin) (full : bool) : Game :=
  {| plugins := reg;
     _pluginsFullyLoaded := full;
     masterlist := masterlist g;
     userlist := userlist g;
     messages := messages g;
     loadOrder := loadOrder g;
     masterFile := masterFile g |}.

Definition set_messages (g : Game) (msgs : list string) : Game :=
  {| plugins := plugins g;
     _pluginsFullyLoaded := _pluginsFullyLoaded g;
     masterlist := masterlist g;
     userlist := userlist g;
     messages := msgs;
     loadOrder := loadOrder g;
     masterFile := masterFile g |}.

Definition default_metadata : PluginMetadata :=
  {| md_requirements := ∅;
     md_loadAfter := ∅;
     md_priority := 0;
     md_isPriorityGlobal := false;
     md_messages := [] |}.

(** The sorter's data, after section 3 of the specification. *)

Inductive Group := MasterGroup | PluginGroup.

Inductive EdgeKind := Structural | Requirement | LoadAfter | Priority | GameMaster.

Record Edge := mkEdge {
  e_from : string;
  e_to : string;
  e_kind : EdgeKind
}.

Record EffectivePlugin := mkEffective {
  ep_key : string;
  ep_plugin : Plugin;
  ep_metadata : PluginMetadata;
  ep_effectivePriority : Z;
  ep_group : Group
}.

Record DependencyGraph := mkGraph {
  dg_nodes : list EffectivePlugin;
  dg_edges : list Edge
}.

(** What the topological sorter returns: the keys in order, or the cycle. *)
Inductive TopoResult :=
| Ordered (order : list string)
| Cycle (cycle : list string).

(** What a sort session returns. *)
Inductive SortResult :=
| Sorted (order : list Plugin)
| CyclicDependencyError (cycle : list string).

#[global] Instance Group_eq_dec : EqDecision Group.
Proof. solve_decision. Defined.

#[global] Instance EdgeKind_eq_dec : EqDecision EdgeKind.
Proof. solve_decision. Defined.

Definition set_userlist (g : Game) (ul : gmap string PluginMetadata) : Game :=
  {| plugins := plugins g;
     _pluginsFullyLoaded := _pluginsFullyLoaded g;
     masterlist := masterlist g;
     userlist := ul;
     messages := messages g;
     loadOrder := loadOrder g;
     masterFile := masterFile g |}.

(** One entry of the directory listing: [it->path().filename()],
    [fs::is_regular_file(it->status())] and [fs::file_size(it->path())]. *)
Record dirent := mkDirent {
  d_name : string;
  d_regular : bool;
  d_size : Z
}.

(** What one call of [LoadPlugins] comes to.  [Terminated]: an exception
    left a thread's function, so [std::terminate] ended the process.
    [Undefined]: the call divided by zero. *)
Inductive Outcome :=
| Completed (g : Game)
| Terminated
| Undefined.

(** ** Strings *)

Definition uintmax_modulus : Z := 2 ^ 64.

(** [std::toupper] on one [char], for the ASCII letters. *)
Definition ascii_toupper (c : ascii) : ascii :=
  let n := nat_of_ascii c in
  if (97 <=? n)%nat && (n <=? 122)%nat then ascii_of_nat (n - 32) else c.

Definition ascii_tolower (c : ascii) : ascii :=
  let n := nat_of_ascii c in
  if (65 <=? n)%nat && (n <=? 90)%nat then ascii_of_nat (n + 32) else c.

Fixpoint string_map (f : ascii → ascii) (s : string) : string :=
  match s with
  | EmptyString => EmptyString
  | String c s' => String (f c) (string_map f s')
  end.

(** [boost::iends_with(input, test)]: [test] is a suffix of [input], the
    characters compared after [std::toupper]. *)
Definition iends_with (input test : string) : bool :=
  let li := String.length input in
  let lt := String.length test in
  (lt <=? li)%nat &&
  String.eqb (string_map ascii_toupper (substring (li - lt) lt input))
             (string_map ascii_toupper test).

(** Lines 147-149: the [.ghost] suffix is cut off the logical name. *)
Definition trim_ghost (name : string) : string :=
  if iends_with name ".ghost"
  then substring 0 (String.length name - 6) name
  else name.

(** ** The size multimap *)

(** [std::multimap::emplace]: the new entry goes to the upper bound of the
    entries of equal key, so iteration is ascending in the key and, among
    equal keys, in insertion order. *)
Fixpoint multimap_emplace (k : Z) (v : string) (m : list (Z * string)) : list (Z * string) :=
  match m with
  | [] => [(k, v)]
  | (k', v') :: m' =>
      if (k <? k')%Z then (k, v) :: m
      else (k', v') :: multimap_emplace k v m'
  end.

(** Ascending in the file size. *)
Definition size_le (a b : Z * string) : Prop := (a.1 ≤ b.1)%Z.

(** ** Lanes *)

(** Lines 166-167. *)
Definition threadsToUse (hardware_concurrency n : nat) : nat :=
  Nat.max (Nat.min hardware_concurrency n) 1.

(** One turn of the loop of lines 177-183: the state is the vector of
    groups and [currentGroup]. *)
Definition assign_step (threads : nat) (st : list (list string) * nat) (name : string)
  : list (list string) * nat :=
  let '(groups, currentGroup) := st in
  let currentGroup := if (currentGroup =? threads)%nat then 0%nat else currentGroup in
  (alter (λ grp, grp ++ [name]) currentGroup groups, S currentGroup).

(** Lines 171-183: [pluginGroups] after the loop. *)
Definition pluginGroups (threads : nat) (sizeMap : list (Z * string)) : list (list string) :=
  fst (fold_left (assign_step threads) (sizeMap.*2) (replicate threads [], 0%nat)).

(** The threads of lines 187-202 run their groups side by side; each turn
    of a thread's loop builds one [Plugin] and inserts it under the mutex.
    [Interleave lanes tr]: [tr] is one order in which the turns of all lanes
    can happen, every lane going through its own group front to back. *)
Inductive Interleave {A : Type} : list (list A) → list A → Prop :=
| Interleave_done lanes :
    Forall (λ lane, lane = []) lanes → Interleave lanes []
| Interleave_turn lanes i x rest tr :
    lanes !! i = Some (x :: rest) →
    Interleave (<[i := rest]> lanes) tr →
    Interleave lanes (x :: tr).

(** ** An installation for the examples *)

(** Case folding of ASCII names. *)
Definition fold_ascii : string → string := string_map ascii_tolower.

Definition has_plugin_extension (name : string) : bool :=
  iends_with name ".esp" || iends_with name ".esm" ||
  iends_with name ".esp.ghost" || iends_with name ".esm.ghost".

(** A parser that raises on the files whose name starts with [Corrupt]. *)
Definition parse_by_name (name : string) (headersOnly : bool) : string + Plugin :=
  if String.prefix "Corrupt" name then inl "not a plugin file"
  else inr {| Name := name;
              IsActive := true;
              IsMaster := iends_with name ".esm";
              Masters := [] |}.

Definition none_active (name : string) : bool := false.

Definition empty_game : Game :=
  {| plugins := ∅;
     _pluginsFullyLoaded := false;
     masterlist := ∅;
     userlist := ∅;
     messages := [];
     loadOrder := [];
     masterFile := "Skyrim.esm" |}.

Definition old_plugin : Plugin :=
  {| Name := "Old.esp"; IsActive := true; IsMaster := false; Masters := [] |}.

(** A game whose registry holds [Old.esp] from an earlier load. *)
Definition loaded_game : Game :=
  {| plugins := {[ "old.esp" := old_plugin ]};
     _pluginsFullyLoaded := true;
     masterlist := ∅;
     userlist := ∅;
     messages := [];
     loadOrder := [];
     masterFile := "Skyrim.esm" |}.

Definition new_directory : list dirent :=
  [ {| d_name := "New.esp"; d_regular := true; d_size := 40 |} ].


Definition five_plugins : list dirent :=
  [ {| d_name := "E.esp"; d_regular := true; d_size := 500 |};
    {| d_name := "A.esp"; d_regular := true; d_size := 100 |};
    {| d_name := "readme.txt"; d_regular := true; d_size := 1 |};
    {| d_name := "C.esp.ghost"; d_regular := true; d_size := 300 |};
    {| d_name := "B.esm"; d_regular := true; d_size := 200 |};
    {| d_name := "D.esp"; d_regular := true; d_size := 400 |} ].

(** The plugins of the test fixture, in the order that the tests expect
    without metadata. *)
Definition skyrim_plugins : list Plugin :=
  [ mkPlugin "Skyrim.esm" true true [];
    mkPlugin "Blank.esm" true true [];
    mkPlugin "Blank - Different.esm" true true [];
    mkPlugin "Blank - Master Dependent.esm" true true ["Blank.esm"];
    mkPlugin "Blank - Different Master Dependent.esm" true true ["Blank - Different.esm"];
    mkPlugin "Blank.esp" true false [];
    mkPlugin "Blank - Different.esp" true false [];
    mkPlugin "Blank - Master Dependent.esp" true false ["Blank.esm"];
    mkPlugin "Blank - Different Master Dependent.esp" true false ["Blank - Different.esm"];
    mkPlugin "Blank - Plugin Dependent.esp" true false ["Blank.esp"];
    mkPlugin "Blank - Different Plugin Dependent.esp" true false ["Blank - Different.esp"] ].

Definition skyrim_game (ul : gmap string PluginMetadata) (msgs : list string) : Game :=
  {| plugins := list_to_map ((λ plugin, (fold_ascii (Name plugin), plugin)) <$> skyrim_plugins);
     _pluginsFullyLoaded := true;
     masterlist := ∅;
     userlist := ul;
     messages := msgs;
     loadOrder := Name <$> skyrim_plugins;
     masterFile := "Skyrim.esm" |}.

Definition loads_after (refs : list string) : PluginMetadata :=
  {| md_requirements := ∅;
     md_loadAfter := list_to_set refs;
     md_priority := 0;
     md_isPriorityGlobal := false;
     md_messages := [] |}.

Definition with_priority (priority : Z) (global : bool) : PluginMetadata :=
  {| md_requirements := ∅;
     md_loadAfter := ∅;
     md_priority := priority;
     md_isPriorityGlobal := global;
     md_messages := [] |}.

(** The user metadata of the test [Sort_HasCycle]. *)
Definition cyclic_userlist : gmap string PluginMetadata :=
  {[ "blank.esm" := loads_after ["blank - master dependent.esm"] ]}.

(** The user metadata of the test on inherited priorities. *)
Definition inheriting_userlist : gmap string PluginMetadata :=
  <["blank - different master dependent.esp" := with_priority 1 true]>
    (<["blank - different.esp" := loads_after ["blank - master dependent.esp"]]>
       (<["blank - master dependent.esp" := loads_after ["blank.esp"]]>
          {[ "blank.esp" := with_priority 2 false ]})).

(** Closes a decidable goal about the examples by evaluation. *)
Ltac by_computation :=
  match goal with
  | |- ?P => apply (bool_decide_unpack P); vm_compute; exact I
  end.

(** Two files whose names differ in case only. *)
Definition case_directory : list dirent :=
  [ {| d_name := "Blank.esp"; d_regular := true; d_size := 10 |};
    {| d_name := "BLANK.ESP"; d_regular := true; d_size := 20 |} ].

Definition pair_directory : list dirent :=
  [ {| d_name := "Good.esp"; d_regular := true; d_size := 70 |};
    {| d_name := "New.esp"; d_regular := true; d_size := 40 |} ].

(** Two plugins of one size around a smaller one. *)
Definition same_size_directory : list dirent :=
  [ {| d_name := "Z.esp"; d_regular := true; d_size := 50 |};
    {| d_name := "M.esp"; d_regular := true; d_size := 20 |};
    {| d_name := "A.esp"; d_regular := true; d_size := 50 |} ].

(** A load order of three plugins, and the files of the data path: the
    second plugin is ghosted, and the times are out of order. *)
Definition redate_game : Game :=
  {| plugins := ∅;
     _pluginsFullyLoaded := false;
     masterlist := ∅;
     userlist := ∅;
     messages := [];
     loadOrder := ["A.esp"; "B.esp"; "C.esp"];
     masterFile := "Skyrim.esm" |}.

Definition redate_files : gmap string Z :=
  <["A.esp" := 300%Z]> (<["B.esp.ghost" := 100%Z]> (<["C.esp" := 200%Z]>
    {[ "notes.txt" := 5%Z ]})).

Definition redated_files : gmap string Z :=
  <["A.esp" := 300%Z]> (<["B.esp.ghost" := 360%Z]> (<["C.esp" := 420%Z]>
    {[ "notes.txt" := 5%Z ]})).

Definition int64_max : Z := 2 ^ 63 - 1.

(** A comparison of a plugin with a name by the name, as it is. *)
Definition name_is (plugin : Plugin) (name : string) : bool := String.eqb (Name plugin) name.


(** A load-after entry that names a plugin that is not loaded. *)
Definition dangling_userlist : gmap string PluginMetadata :=
  {[ "blank.esp" := loads_after ["missing.esp"] ]}.

(** Two plugins without any edge between them; the load order has [B.esp]
    first. *)
Definition tie_game : Game :=
  {| plugins := <["a.esp" := mkPlugin "A.esp" true false []]>
                  {[ "b.esp" := mkPlugin "B.esp" true false [] ]};
     _pluginsFullyLoaded := true;
     masterlist := ∅;
     userlist := ∅;
     messages := [];
     loadOrder := ["B.esp"; "A.esp"];
     masterFile := "Skyrim.esm" |}.
Section Loot.

(** [boost::locale::to_lower]. *)
Variable to_lower : string → string.
(** [Plugin::IsValid(name, game)]. *)
Variable Plugin_IsValid : string → bool.
(** The constructor [Plugin(game, name, headersOnly)]: the plugin it
    constructs, or the exception that leaves it (its text).  Which failures
    of the parser the constructor lets out is decided in [plugin.cpp], which
    is not among the modelled sources. *)
Variable Plugin_ctor : string → bool → string + Plugin.
(** [LoadOrderHandler::IsPluginActive]. *)
Variable LoadOrderHandler_IsPluginActive : string → bool.

(** ** [Game::addPlugin], lines 219-222 *)

(** [unordered_map::emplace] inserts only when the key is free. *)
Definition addPlugin (plugin : Plugin) (reg : gmap string Plugin) : gmap string Plugin :=
  let key := to_lower (Name plugin) in
  match reg !! key with
  | Some _ => reg
  | None => <[key := plugin]> reg
  end.

(** ** [Game::IsPluginActive], lines 211-217 *)

Definition IsPluginActive (g : Game) (pluginName : string) : bool :=
  match plugins g !! to_lower pluginName with
  | Some plugin => IsActive plugin
  | None => LoadOrderHandler_IsPluginActive pluginName
  end.

(** ** [Game::LoadPlugins], lines 136-205

    Left out, as they do not change what the call comes to: the log lines,
    [plugins.reserve] (line 162) and [pluginsPerThread] (line 170), which is
    only logged. *)

(** Line 143: the entry is a regular file that [Plugin::IsValid] accepts. *)
Definition is_candidate (e : dirent) : bool := d_regular e && Plugin_IsValid (d_name e).

(** Lines 142-156: the scan, giving [sizeMap] and the running sum
    [meanFileSize]. *)
Definition scan_step (st : list (Z * string) * Z) (e : dirent) : list (Z * string) * Z :=
  let '(sizeMap, meanFileSize) := st in
  if is_candidate e
  then (multimap_emplace (d_size e) (trim_ghost (d_name e)) sizeMap,
        ((meanFileSize + d_size e) mod uintmax_modulus)%Z)
  else st.

Definition scan (dir : list dirent) : list (Z * string) * Z :=
  fold_left scan_step dir ([], 0%Z).

Definition sizeMap_of (dir : list dirent) : list (Z * string) := fst (scan dir).

(** Line 157, [meanFileSize /= sizeMap.size()]: no value when the divisor
    is zero (the division of an unsigned integer by zero is undefined). *)
Definition meanFileSize_of (dir : list dirent) : option Z :=
  let '(sizeMap, total) := scan dir in
  if (length sizeMap =? 0)%nat then None
  else Some (total / Z.of_nat (length sizeMap))%Z.

(** Lines 164-183 on the scanned directory. *)
Definition lanes_of (hardware_concurrency : nat) (dir : list dirent) : list (list string) :=
  let sizeMap := sizeMap_of dir in
  pluginGroups (threadsToUse hardware_concurrency (length sizeMap)) sizeMap.

(** The turns of the threads in the order [tr]: every turn runs the
    constructor and then [addPlugin]; an exception of the constructor is
    caught nowhere (lines 190-195), which ends the process. *)
Fixpoint run_trace (headersOnly : bool) (tr : list string) (reg : gmap string Plugin)
  : option (gmap string Plugin) :=
  match tr with
  | [] => Some reg
  | pluginName :: tr' =>
      match Plugin_ctor pluginName headersOnly with
      | inl _ => None
      | inr plugin => run_trace headersOnly tr' (addPlugin plugin reg)
      end
  end.

(** The constructor returns a plugin. *)
Definition parses (headersOnly : bool) (pluginName : string) : bool :=
  match Plugin_ctor pluginName headersOnly with
  | inr _ => true
  | inl _ => false
  end.

(** [LoadPlugins] under the schedule [tr]. *)
Definition LoadPlugins_sched (headersOnly : bool)
    (dir : list dirent) (tr : list string) (g : Game) : Outcome :=
  match meanFileSize_of dir with
  | None => Undefined
  | Some _ =>
      match run_trace headersOnly tr (plugins g) with
      | None => Terminated
      | Some reg => Completed (set_plugins g reg (negb headersOnly))
      end
  end.

(** [LoadPlugins]: the outcomes under all schedules of the lanes. *)
Definition LoadPlugins (headersOnly : bool) (hardware_concurrency : nat)
    (dir : list dirent) (g : Game) (o : Outcome) : Prop :=
  ∃ tr, Interleave (lanes_of hardware_concurrency dir) tr ∧
        o = LoadPlugins_sched headersOnly dir tr g.

(** The schedule in which the threads run one after the other. *)
Definition LoadPlugins_seq (headersOnly : bool) (hardware_concurrency : nat)
    (dir : list dirent) (g : Game) : Outcome :=
  LoadPlugins_sched headersOnly dir (concat (lanes_of hardware_concurrency dir)) g.

(** The registry invariant: every record sits under the case-folded form
    of its own name. *)
Definition registry_keyed (reg : gmap string Plugin) : Prop :=
  map_Forall (λ key plugin, key = to_lower (Name plugin)) reg.

(** The logical names handed to the threads. *)
Definition candidates (dir : list dirent) : list string := (sizeMap_of dir).*2.

(** ** The plugin sorter

    [backend/plugin_sorter.cpp] ([PluginSorter::Sort]) is not among the
    modelled sources: only its tests are.  Graph builder, priority resolver,
    topological sorter and sort session below follow sections 3 and 4.2-4.5
    of the specification.

    The rules are taken as the specification words them.  Its section 4.3
    lets priorities travel along requirement and load-after edges only and
    adds the priority edges without looking at the edges that are there; on
    the metadata of the two tests with priorities this gives a cycle where
    the tests expect an order.  Nothing proved below depends on how the
    priority edges are chosen. *)

(** Modelled from the spec: the merge of the curated and the user entry of
    one plugin ([PluginMetadata] merging is missing from the sources):
    set-union on requirements, load-after and messages, priority and
    its global flag from the user entry when that one is not the default. *)
Definition mergeMetadata (curated user : PluginMetadata) : PluginMetadata :=
  {| md_requirements := md_requirements curated ∪ md_requirements user;
     md_loadAfter := md_loadAfter curated ∪ md_loadAfter user;
     md_priority :=
       if (md_priority user =? 0)%Z then md_priority curated else md_priority user;
     md_isPriorityGlobal :=
       if md_isPriorityGlobal user then true else md_isPriorityGlobal curated;
     md_messages := list_union (md_messages curated) (md_messages user) |}.

(** Modelled from the spec: the merged overlay of a plugin key (the lookup
    in masterlist and userlist is missing from the sources); a key without
    entry has the defaults. *)
Definition mergedMetadata (g : Game) (key : string) : PluginMetadata :=
  mergeMetadata (default default_metadata (masterlist g !! key))
                (default default_metadata (userlist g !! key)).

(** Modelled from the spec: an entry is registered with the user overlay
    (missing: [MetadataList::AddPlugin], which the tests call); the overlay
    is keyed by the plugin key. *)
Definition AddPlugin (key : string) (entry : PluginMetadata) (g : Game) : Game :=
  set_userlist g (<[key := entry]> (userlist g)).

(** Modelled from the spec: the tie-break order of the nodes (missing:
    [PluginSorter]'s vertex order): position in the current load order,
    and for plugins without one the iteration order of the registry. *)
Definition nodeOrder (g : Game) : list string :=
  let lo := remove_dups (to_lower <$> loadOrder g) in
  filter (λ key, is_Some (plugins g !! key)) lo ++
  filter (λ key, key ∉ lo) (map_to_list (plugins g)).*1.

(** Modelled from the spec: the per-sort working nodes (missing:
    [PluginSorter::BuildPluginGraph]), one [EffectivePlugin] per loaded
    plugin, the effective priority starting at the explicit one. *)
Definition effectiveNodes (g : Game) : list EffectivePlugin :=
  omap (λ key,
          plugin ← plugins g !! key;
          Some {| ep_key := key;
                  ep_plugin := plugin;
                  ep_metadata := mergedMetadata g key;
                  ep_effectivePriority := md_priority (mergedMetadata g key);
                  ep_group := if IsMaster plugin then MasterGroup else PluginGroup |})
       (nodeOrder g).

(** Modelled from the spec: step 1 of the graph builder (missing:
    [PluginSorter]'s edge construction): the game's master file, when
    loaded, precedes every other master. *)
Definition gameMasterEdges (g : Game) (nodes : list EffectivePlugin) : list Edge :=
  let gm := to_lower (masterFile g) in
  if bool_decide (is_Some (plugins g !! gm))
  then (λ n, mkEdge gm (ep_key n) GameMaster) <$>
       filter (λ n, ep_group n = MasterGroup ∧ ep_key n ≠ gm) nodes
  else [].

(** Modelled from the spec: steps 2 and 3 for one referenced name: an edge
    when the key is loaded, a diagnostic and no edge when it is not. *)
Definition referenceEdge (g : Game) (kind : EdgeKind) (what : string)
    (n : EffectivePlugin) (ref : string) : list Edge * list string :=
  if bool_decide (is_Some (plugins g !! ref))
  then ([mkEdge ref (ep_key n) kind], [])
  else ([], [String.append (Name (ep_plugin n))
               (String.append what ref)]).

(** Modelled from the spec: the edges and diagnostics of one node:
    structural masters, then requirements, then load-after entries. *)
Definition nodeEdges (g : Game) (n : EffectivePlugin) : list (list Edge * list string) :=
  (referenceEdge g Structural " has a master that is not loaded: " n <$>
     (to_lower <$> Masters (ep_plugin n))) ++
  (referenceEdge g Requirement " requires a plugin that is not loaded: " n <$>
     elements (md_requirements (ep_metadata n))) ++
  (referenceEdge g LoadAfter " loads after a plugin that is not loaded: " n <$>
     elements (md_loadAfter (ep_metadata n))).

(** Modelled from the spec: [BuildGraph] (missing:
    [PluginSorter::BuildPluginGraph]): the graph of the hard edges and the
    diagnostics produced on the way. *)
Definition BuildGraph (g : Game) : DependencyGraph * list string :=
  let nodes := effectiveNodes g in
  let found := nodes ≫= nodeEdges g in
  ({| dg_nodes := nodes;
      dg_edges := gameMasterEdges g nodes ++ found ≫= fst |},
   found ≫= snd).

(** *** Priority resolver *)

(** Modelled from the spec: priorities travel along requirement and
    load-after edges only. *)
Definition propagates (e : Edge) : bool :=
  match e_kind e with
  | Requirement | LoadAfter => true
  | Structural | Priority | GameMaster => false
  end.

(** Modelled from the spec: one relaxation (missing:
    [PluginSorter::PropagatePriorities]): the successor's effective
    priority becomes the maximum of its own and its predecessor's. *)
Definition relax_edge (eff : gmap string Z) (e : Edge) : gmap string Z :=
  if propagates e then
    match eff !! e_from e, eff !! e_to e with
    | Some pa, Some pb => <[e_to e := Z.max pb pa]> eff
    | _, _ => eff
    end
  else eff.

Definition relax_round (edges : list Edge) (eff : gmap string Z) : gmap string Z :=
  fold_left relax_edge edges eff.

(** Modelled from the spec: repeated relaxation until no value changes. *)
Fixpoint relax_fix (fuel : nat) (edges : list Edge) (eff : gmap string Z)
  : option (gmap string Z) :=
  match fuel with
  | O => None
  | S fuel' =>
      let eff' := relax_round edges eff in
      if decide (eff' = eff) then Some eff
      else relax_fix fuel' edges eff'
  end.

Definition initialPriorities (nodes : list EffectivePlugin) : gmap string Z :=
  list_to_map ((λ n, (ep_key n, ep_effectivePriority n)) <$> nodes).

(** Modelled from the spec: [ResolvePriorities(graph, nodes)], the mapping
    from key to effective priority. *)
Definition ResolvePriorities (graph : DependencyGraph) : option (gmap string Z) :=
  let n := length (dg_nodes graph) in
  relax_fix (S (n * n)) (dg_edges graph) (initialPriorities (dg_nodes graph)).

Definition setPriorities (eff : gmap string Z) (nodes : list EffectivePlugin)
  : list EffectivePlugin :=
  (λ n, {| ep_key := ep_key n;
           ep_plugin := ep_plugin n;
           ep_metadata := ep_metadata n;
           ep_effectivePriority := default (ep_effectivePriority n) (eff !! ep_key n);
           ep_group := ep_group n |}) <$> nodes.

(** Modelled from the spec: the priority edge of an ordered pair, from the
    lower to the higher effective priority; across the groups only when one
    of the two has a global priority. *)
Definition priorityEdge (a b : EffectivePlugin) : list Edge :=
  if (ep_effectivePriority a =? ep_effectivePriority b)%Z then []
  else if md_isPriorityGlobal (ep_metadata a) || md_isPriorityGlobal (ep_metadata b)
          || bool_decide (ep_group a = ep_group b)
  then if (ep_effectivePriority a <? ep_effectivePriority b)%Z
       then [mkEdge (ep_key a) (ep_key b) Priority]
       else [mkEdge (ep_key b) (ep_key a) Priority]
  else [].

Definition priorityEdges (nodes : list EffectivePlugin) : list Edge :=
  a ← nodes; b ← nodes; priorityEdge a b.

(** *** Topological sorter *)

Definition inDegree (edges : list Edge) (key : string) : nat :=
  length (filter (λ e, e_to e = key) edges).

Definition inDegrees (keys : list string) (edges : list Edge) : gmap string nat :=
  list_to_map ((λ key, (key, inDegree edges key)) <$> keys).

(** Modelled from the spec: a node is ready when its remaining in-degree
    is zero and the group partition lets it go: a master always, a plugin
    once no master is left. *)
Definition isReady (isMaster : string → bool) (indeg : gmap string nat)
    (unsorted : list string) (key : string) : bool :=
  bool_decide (indeg !! key = Some 0%nat) &&
  (isMaster key || forallb (λ k, negb (isMaster k)) unsorted).

(** The in-degree of every successor of [key] goes down by one per edge. *)
Definition release (edges : list Edge) (key : string) (indeg : gmap string nat)
  : gmap string nat :=
  fold_left (λ m e, if bool_decide (e_from e = key) then alter Nat.pred (e_to e) m else m)
            edges indeg.

(** Modelled from the spec: the predecessor that keeps an unsorted node
    from being ready: the source of an edge, or for a plugin a master that
    is still unsorted. *)
Definition blocker (edges : list Edge) (isMaster : string → bool)
    (unsorted : list string) (key : string) : option string :=
  match List.find (λ e, bool_decide (e_to e = key ∧ e_from e ∈ unsorted)) edges with
  | Some e => Some (e_from e)
  | None => if isMaster key then None else List.find isMaster unsorted
  end.

Fixpoint take_through (key : string) (path : list string) : list string :=
  match path with
  | [] => []
  | k :: path' => if decide (k = key) then [k] else k :: take_through key path'
  end.

Fixpoint walkBack (fuel : nat) (pred : string → option string)
    (path : list string) (key : string) : list string :=
  if bool_decide (key ∈ path) then key :: take_through key path
  else match fuel with
       | O => []
       | S fuel' =>
           match pred key with
           | None => []
           | Some p => walkBack fuel' pred (key :: path) p
           end
       end.

(** Modelled from the spec: the cycle reported on failure (missing:
    [PluginSorter::CheckForCycles]): a simple path of keys that returns to
    its start, found by walking back from an unsorted node. *)
Definition findCycle (edges : list Edge) (isMaster : string → bool)
    (unsorted : list string) : list string :=
  match unsorted with
  | [] => []
  | key :: _ => walkBack (length unsorted) (blocker edges isMaster unsorted) [] key
  end.

(** Modelled from the spec: the Kahn-style loop.  The first ready node in
    tie-break order is taken; with unsorted nodes left and none ready the
    sort fails and no partial order is returned. *)
Fixpoint kahn (fuel : nat) (edges : list Edge) (isMaster : string → bool)
    (indeg : gmap string nat) (unsorted out : list string) : option TopoResult :=
  match unsorted with
  | [] => Some (Ordered out)
  | _ :: _ =>
      match List.find (isReady isMaster indeg unsorted) unsorted with
      | None => Some (Cycle (findCycle edges isMaster unsorted))
      | Some key =>
          match fuel with
          | O => None
          | S fuel' =>
              kahn fuel' edges isMaster (release edges key indeg)
                   (filter (λ k, k ≠ key) unsorted) (out ++ [key])
          end
      end
  end.

(** Modelled from the spec: [Sort(graph)] of the topological sorter, over
    the keys in tie-break order. *)
Definition TopologicalSort (keys : list string) (isMaster : string → bool)
    (edges : list Edge) : option TopoResult :=
  kahn (length keys) edges isMaster (inDegrees keys edges) keys [].

Definition masterKey (nodes : list EffectivePlugin) (key : string) : bool :=
  existsb (λ n, bool_decide (ep_key n = key ∧ ep_group n = MasterGroup)) nodes.

(** *** Sort session *)

Definition describeCycle (cycle : list string) : string :=
  String.append "Cyclic interaction detected: " (String.concat " > " cycle).

(** Modelled from the spec: the attempt of step (b) of the sort session:
    the new message list together with the order or the cycle.  The hard
    subgraph is checked before the priorities are resolved. *)
Definition sortAttempt (g : Game) : option (list string * TopoResult) :=
  let '(graph, newMessages) := BuildGraph g in
  let keys := ep_key <$> dg_nodes graph in
  hard ← TopologicalSort keys (λ _, true) (dg_edges graph);
  match hard with
  | Cycle cycle => Some (newMessages, Cycle cycle)
  | Ordered _ =>
      eff ← ResolvePriorities graph;
      let nodes := setPriorities eff (dg_nodes graph) in
      result ← TopologicalSort keys (masterKey nodes)
                 (dg_edges graph ++ priorityEdges nodes);
      Some (newMessages, result)
  end.

(** Modelled from the spec: [Sort(context)] (missing: [PluginSorter::Sort]).
    On success the message list of the game is replaced by the new one and
    the plugins are returned in order; on a cycle the game is left as it is,
    the cycle is described on the separate error channel [errors] and the
    call fails. *)
Definition Sort (g : Game) (errors : list string)
  : option (SortResult * Game * list string) :=
  attempt ← sortAttempt g;
  match attempt with
  | (newMessages, Ordered order) =>
      Some (Sorted (omap (λ key, plugins g !! key) order),
            set_messages g newMessages, errors)
  | (_, Cycle cycle) =>
      Some (CyclicDependencyError cycle, g, errors ++ [describeCycle cycle])
  end.

(** *** Notions for the proofs *)

(** The edges from the nodes of [unsorted] into [key]. *)
Definition blocked_in (edges : list Edge) (unsorted : list string) (key : string) : nat :=
  length (filter (λ e, e_to e = key ∧ e_from e ∈ unsorted) edges).

(** The in-degree counters are no less than the edges that are left. *)
Definition indeg_covers (edges : list Edge) (indeg : gmap string nat)
    (unsorted : list string) : Prop :=
  ∀ key, key ∈ unsorted →
    ∃ n, indeg !! key = Some n ∧ blocked_in edges unsorted key ≤ n.

(** Every node of [C] has a predecessor in [C]: the nodes of the cycles. *)
Definition stuck (edges : list Edge) (C : string → Prop) : Prop :=
  ∀ key, C key → ∃ e, e ∈ edges ∧ e_to e = key ∧ C (e_from e).

(** [a] has to load before [b]: both are loaded and [a] is a master named
    in [b]'s header, a requirement of [b] or a load-after entry of [b]. *)
Definition mustPrecede (g : Game) (a b : string) : bool :=
  bool_decide (is_Some (plugins g !! a)) &&
  match plugins g !! b with
  | None => false
  | Some plugin =>
      bool_decide (a ∈ to_lower <$> Masters plugin) ||
      bool_decide (a ∈ md_requirements (mergedMetadata g b)) ||
      bool_decide (a ∈ md_loadAfter (mergedMetadata g b))
  end.

(** [a] loads after [b] by the metadata: both are loaded and [b] is a
    load-after entry of [a]. *)
Definition loadsAfter (g : Game) (a b : string) : bool :=
  bool_decide (is_Some (plugins g !! a)) &&
  bool_decide (is_Some (plugins g !! b)) &&
  bool_decide (b ∈ md_loadAfter (mergedMetadata g a)).

(** The effective priorities only go up, on the same keys. *)
Definition grows (m m' : gmap string Z) : Prop :=
  ∀ key, match m !! key, m' !! key with
         | Some x, Some y => (x ≤ y)%Z
         | None, None => True
         | _, _ => False
         end.

(** No propagating edge goes down. *)
Definition settled (edges : list Edge) (m : gmap string Z) : Prop :=
  ∀ e pa pb, e ∈ edges → propagates e = true →
    m !! e_from e = Some pa → m !! e_to e = Some pb → (pa ≤ pb)%Z.

(** The priorities of [P] below [x]. *)
Definition rank (P : list Z) (x : Z) : nat :=
  length (filter (λ p, (p < x)%Z) P).

(** The measure that every changing round of relaxation raises. *)
Definition potential (P : list Z) (keys : list string) (m : gmap string Z) : nat :=
  sum_list ((λ key, rank P (default 0%Z (m !! key))) <$> keys).

Definition within (P : list Z) (keys : list string) (m : gmap string Z) : Prop :=
  ∀ key x, m !! key = Some x → key ∈ keys ∧ x ∈ P.


(** *** Notions for the order of a sort *)

(** Modelled from the spec: a node that the Kahn loop of section 4.4 may
    take from the unsorted ones: no edge comes into it from a node that is
    still unsorted, and the group partition lets it go, masters strictly
    before plugins. *)
Definition takeable (edges : list Edge) (isMaster : string → bool)
    (unsorted : list string) (key : string) : Prop :=
  key ∈ unsorted ∧
  (∀ e, e ∈ edges → e_to e = key → e_from e ∉ unsorted) ∧
  (isMaster key = true ∨ ∀ k, k ∈ unsorted → isMaster k = false).

(** Modelled from the spec: the tie-break rule of section 4.4: of the
    nodes that may be taken, the one that comes first in tie-break order. *)
Definition firstTakeable (edges : list Edge) (isMaster : string → bool)
    (unsorted : list string) (key : string) : Prop :=
  ∃ before after,
    unsorted = before ++ key :: after ∧
    takeable edges isMaster unsorted key ∧
    ∀ k, k ∈ before → ¬ takeable edges isMaster unsorted k.

(** Modelled from the spec: the runs of the Kahn loop in which every node
    is taken by the rule [choose], from the unsorted nodes to the output. *)
Inductive kahnRun (choose : list string → string → Prop)
  : list string → list string → Prop :=
  | kahnRun_done : kahnRun choose [] []
  | kahnRun_take unsorted key order :
      choose unsorted key →
      kahnRun choose (filter (λ k, k ≠ key) unsorted) order →
      kahnRun choose unsorted (key :: order).

(** The edges and the groups that the last pass of [sortAttempt] sorts by:
    the hard edges with the priority edges of the resolved priorities. *)
Definition sortEdges (g : Game) (eff : gmap string Z) : list Edge :=
  dg_edges (BuildGraph g).1 ++
  priorityEdges (setPriorities eff (dg_nodes (BuildGraph g).1)).

Definition sortMasters (g : Game) (eff : gmap string Z) : string → bool :=
  masterKey (setPriorities eff (dg_nodes (BuildGraph g).1)).

(** The in-degree counters are the edges that are left. *)
Definition indeg_exact (edges : list Edge) (indeg : gmap string nat)
    (unsorted : list string) : Prop :=
  ∀ key, key ∈ unsorted → indeg !! key = Some (blocked_in edges unsorted key).

(** Modelled from the spec: what the diagnostics of a sort are (sections
    4.2 and 7, [DanglingReference]): a loaded plugin names a master, a
    requirement or a load-after entry that is not loaded. *)
Definition dangling (g : Game) (msg : string) : Prop :=
  ∃ key plugin what ref,
    plugins g !! key = Some plugin ∧ plugins g !! ref = None ∧
    msg = String.append (Name plugin) (String.append what ref) ∧
    ((what = " has a master that is not loaded: " ∧
      ref ∈ to_lower <$> Masters plugin) ∨
     (what = " requires a plugin that is not loaded: " ∧
      ref ∈ md_requirements (mergedMetadata g key)) ∨
     (what = " loads after a plugin that is not loaded: " ∧
      ref ∈ md_loadAfter (mergedMetadata g key))).
(** ** More of [game.cpp] and of the tests *)

(** [Game::ArePluginsFullyLoaded], lines 207-209. *)
Definition ArePluginsFullyLoaded (g : Game) : bool := _pluginsFullyLoaded g.

(** The entries of the directory in the form in which line 154 puts them
    into the multimap, in the order of the listing. *)
Definition scanned (dir : list dirent) : list (Z * string) :=
  (λ e, (d_size e, trim_ghost (d_name e))) <$> List.filter is_candidate dir.

(** *** [Game::RedatePlugins], lines 105-134

    The files of the data path are a map from the file name to the time of
    the last write.  [time_t] is a signed integer type of the platform; the
    call has no defined result when [lastTime += 60] leaves its range. *)

(** [Game::tes5] of [game_settings.h]. *)
Variable tes5 : nat.
(** The largest value of [time_t]. *)
Variable time_t_max : Z.

(** Lines 113-121: the file of a plugin of the load order, itself or its
    [.ghost], with the time of its last write; none when neither exists. *)
Definition file_of (files : gmap string Z) (pluginName : string) : option (string * Z) :=
  match files !! pluginName with
  | Some thisTime => Some (pluginName, thisTime)
  | None =>
      match files !! (pluginName +:+ ".ghost") with
      | Some thisTime => Some (pluginName +:+ ".ghost", thisTime)
      | None => None
      end
  end.

(** Lines 112-131: one turn of the loop. *)
Definition redate_step (files : gmap string Z) (lastTime : Z) (pluginName : string)
  : option (gmap string Z * Z) :=
  match file_of files pluginName with
  | None => Some (files, lastTime)
  | Some (filepath, thisTime) =>
      if (lastTime <=? thisTime)%Z then Some (files, thisTime)
      else if (time_t_max <? lastTime + 60)%Z then None
      else Some (<[filepath := (lastTime + 60)%Z]> files, (lastTime + 60)%Z)
  end.

Fixpoint redate_loop (loadorder : list string) (files : gmap string Z) (lastTime : Z)
  : option (gmap string Z) :=
  match loadorder with
  | [] => Some files
  | pluginName :: loadorder' =>
      match redate_step files lastTime pluginName with
      | None => None
      | Some (files', lastTime') => redate_loop loadorder' files' lastTime'
      end
  end.

(** [RedatePlugins] of the game with the id [Id] on the files of its data
    path: the files afterwards. *)
Definition RedatePlugins (Id : nat) (g : Game) (files : gmap string Z)
  : option (gmap string Z) :=
  if bool_decide (Id = tes5) then redate_loop (loadOrder g) files 0%Z
  else Some files.

(** The files of the plugins of a load order, in its order. *)
Definition files_of (files : gmap string Z) (loadorder : list string) : list (string * Z) :=
  omap (file_of files) loadorder.

(** The same files exist. *)
Definition same_files (a b : gmap string Z) : Prop :=
  ∀ file, is_Some (a !! file) ↔ is_Some (b !! file).

(** *** The checks of the tests *)

(** [operator==] between a [Plugin] and a [std::string], which the tests
    use through [std::equal]; it is declared outside the modelled files. *)
Variable Plugin_eq_string : Plugin → string → bool.

(** [std::equal(first1, last1, first2)]: the elements of the first range
    against the elements of the second from its start on; the second range
    has to be as long as the first, the behaviour is undefined when it is
    shorter. *)
Fixpoint std_equal {A B : Type} (eq : A → B → bool) (range1 : list A) (range2 : list B)
  : option bool :=
  match range1, range2 with
  | [], _ => Some true
  | _ :: _, [] => None
  | x :: range1', y :: range2' =>
      match std_equal eq range1' range2' with
      | None => None
      | Some rest => Some (eq x y && rest)
      end
  end.

(** [PluginSorterTest::GetExpectedSortedOrder], lines 43-57. *)
Definition GetExpectedSortedOrder : list string :=
  [ "Skyrim.esm"; "Blank.esm"; "Blank - Different.esm";
    "Blank - Master Dependent.esm"; "Blank - Different Master Dependent.esm";
    "Blank.esp"; "Blank - Different.esp"; "Blank - Master Dependent.esp";
    "Blank - Different Master Dependent.esp"; "Blank - Plugin Dependent.esp";
    "Blank - Different Plugin Dependent.esp" ].

(** [PluginSorterTest::GetActualSortedOrder], lines 59-68. *)
Definition GetActualSortedOrder (sortedPlugins : list Plugin) : list string :=
  Name <$> sortedPlugins.

(** The expectation of the tests [Sort] and [Sort_HeadersOnly], lines 87,
    91 and 124. *)
Definition expect_std_equal (sorted : list Plugin) : option bool :=
  std_equal Plugin_eq_string sorted GetExpectedSortedOrder.

(** The expectation [EXPECT_EQ] of line 201, on an expected list. *)
Definition expect_eq (expectedSortedOrder : list string) (sorted : list Plugin) : bool :=
  bool_decide (expectedSortedOrder = GetActualSortedOrder sorted).

(** *** [addPlugin] *)

Lemma addPlugin_present plugin reg :
  is_Some (reg !! to_lower (Name plugin)) → addPlugin plugin reg = reg.
Proof. intros [old Hold]. unfold addPlugin. by rewrite Hold. Qed.

Lemma addPlugin_absent plugin reg :
  reg !! to_lower (Name plugin) = None →
  addPlugin plugin reg = <[to_lower (Name plugin) := plugin]> reg.
Proof. intros Hnone. unfold addPlugin. by rewrite Hnone. Qed.

Lemma addPlugin_keeps plugin reg key old :
  reg !! key = Some old → addPlugin plugin reg !! key = Some old.
Proof.
  intros Hold. unfold addPlugin.
  destruct (reg !! to_lower (Name plugin)) as [first|] eqn:Hfirst; [done|].
  rewrite lookup_insert_ne; [done|]. intros <-. congruence.
Qed.

Lemma addPlugin_lookup plugin reg key :
  addPlugin plugin reg !! key =
    match reg !! key with
    | Some old => Some old
    | None => if decide (key = to_lower (Name plugin)) then Some plugin else None
    end.
Proof.
  destruct (reg !! key) as [old|] eqn:Hkey.
  - by apply addPlugin_keeps.
  - unfold addPlugin. case_decide as Heq.
    + subst key. rewrite Hkey. apply lookup_insert_eq.
    + destruct (reg !! to_lower (Name plugin)); [done|].
      by rewrite lookup_insert_ne.
Qed.

Lemma addPlugin_registered plugin reg :
  is_Some (addPlugin plugin reg !! to_lower (Name plugin)).
Proof.
  rewrite addPlugin_lookup.
  destruct (reg !! to_lower (Name plugin)); [by eexists|].
  rewrite decide_True; [by eexists|done].
Qed.

Lemma addPlugin_keyed plugin reg :
  registry_keyed reg → registry_keyed (addPlugin plugin reg).
Proof.
  intros Hreg key v. rewrite addPlugin_lookup.
  destruct (reg !! key) as [old|] eqn:Hkey.
  - intros [= <-]. by apply (Hreg key).
  - case_decide; [|done]. by intros [= <-].
Qed.

Lemma registry_keyed_unique reg k1 k2 v1 v2 :
  registry_keyed reg →
  reg !! k1 = Some v1 → reg !! k2 = Some v2 →
  to_lower (Name v1) = to_lower (Name v2) → k1 = k2 ∧ v1 = v2.
Proof.
  intros Hreg H1 H2 Hnames.
  assert (k1 = k2) as ->.
  { rewrite (Hreg _ _ H1), (Hreg _ _ H2). done. }
  split; [done|congruence].
Qed.

(** *** The turns of the threads *)

Lemma run_trace_keeps headersOnly tr reg reg' key old :
  run_trace headersOnly tr reg = Some reg' →
  reg !! key = Some old → reg' !! key = Some old.
Proof.
  revert reg. induction tr as [|name tr IH]; simpl; intros reg Hrun Hold.
  - by inversion Hrun; subst.
  - destruct (Plugin_ctor name headersOnly) as [e|plugin]; [done|].
    eapply IH; [done|]. by apply addPlugin_keeps.
Qed.

Lemma run_trace_origin headersOnly tr reg reg' key v :
  run_trace headersOnly tr reg = Some reg' →
  reg' !! key = Some v →
  reg !! key = Some v ∨
  ∃ name, name ∈ tr ∧ Plugin_ctor name headersOnly = inr v ∧ key = to_lower (Name v).
Proof.
  revert reg. induction tr as [|name tr IH]; simpl; intros reg Hrun Hv.
  - inversion Hrun; subst. by left.
  - destruct (Plugin_ctor name headersOnly) as [e|plugin] eqn:Hctor; [done|].
    destruct (IH _ Hrun Hv) as [Hin|(name' & Hin & Hc & Hk)].
    + rewrite addPlugin_lookup in Hin.
      destruct (reg !! key) as [old|]; [left; congruence|].
      case_decide as Heq; [|done]. inversion Hin; subst v.
      right. exists name. split; [left|done].
    + right. exists name'. split; [by right|done].
Qed.

Lemma run_trace_registered headersOnly tr reg reg' name v :
  run_trace headersOnly tr reg = Some reg' →
  name ∈ tr → Plugin_ctor name headersOnly = inr v →
  is_Some (reg' !! to_lower (Name v)).
Proof.
  revert reg. induction tr as [|name' tr IH]; simpl; intros reg Hrun Hin Hctor.
  - by apply elem_of_nil in Hin.
  - destruct (Plugin_ctor name' headersOnly) as [e|plugin] eqn:Hctor'; [done|].
    apply elem_of_cons in Hin as [->|Hin].
    + rewrite Hctor in Hctor'. inversion Hctor'; subst plugin.
      destruct (addPlugin_registered v reg) as [first Hfirst].
      exists first. by eapply run_trace_keeps.
    + by eapply IH.
Qed.

Lemma run_trace_keyed headersOnly tr reg reg' :
  run_trace headersOnly tr reg = Some reg' →
  registry_keyed reg → registry_keyed reg'.
Proof.
  revert reg. induction tr as [|name tr IH]; simpl; intros reg Hrun Hreg.
  - by inversion Hrun; subst.
  - destruct (Plugin_ctor name headersOnly) as [e|plugin]; [done|].
    eapply IH; [done|]. by apply addPlugin_keyed.
Qed.

Lemma run_trace_all_parse headersOnly tr reg :
  (∀ name, name ∈ tr → ∃ v, Plugin_ctor name headersOnly = inr v) →
  is_Some (run_trace headersOnly tr reg).
Proof.
  revert reg. induction tr as [|name tr IH]; simpl; intros reg Hall.
  - by eexists.
  - destruct (Hall name) as [v ->]; [left|].
    apply IH. intros name' Hin. apply Hall. by right.
Qed.

Lemma run_trace_failure headersOnly tr reg name e :
  name ∈ tr → Plugin_ctor name headersOnly = inl e →
  run_trace headersOnly tr reg = None.
Proof.
  revert reg. induction tr as [|name' tr IH]; simpl; intros reg Hin Hctor.
  - by apply elem_of_nil in Hin.
  - apply elem_of_cons in Hin as [->|Hin].
    + by rewrite Hctor.
    + destruct (Plugin_ctor name' headersOnly); [done|]. by apply IH.
Qed.

(** *** The size multimap and the scan *)

Lemma multimap_emplace_perm k v m : multimap_emplace k v m ≡ₚ (k, v) :: m.
Proof.
  induction m as [|[k' v'] m IH]; simpl; [done|].
  destruct (k <? k')%Z; [done|].
  rewrite IH. apply Permutation_swap.
Qed.

Lemma multimap_emplace_sorted k v m :
  StronglySorted size_le m → StronglySorted size_le (multimap_emplace k v m).
Proof.
  induction m as [|[k' v'] m IH]; simpl; intros Hsorted.
  - repeat constructor.
  - apply StronglySorted_inv in Hsorted as [Hm Hall].
    destruct (Z.ltb_spec k k') as [Hlt|Hge].
    + constructor; [by constructor|].
      constructor; [unfold size_le; simpl; lia|].
      eapply Forall_impl; [exact Hall|].
      intros [k2 v2]. unfold size_le. simpl. lia.
    + constructor; [by apply IH|].
      rewrite multimap_emplace_perm.
      constructor; [unfold size_le; simpl; lia|done].
Qed.

Lemma scan_step_eq sizeMap total e :
  scan_step (sizeMap, total) e =
    if is_candidate e
    then (multimap_emplace (d_size e) (trim_ghost (d_name e)) sizeMap,
          ((total + d_size e) mod uintmax_modulus)%Z)
    else (sizeMap, total).
Proof. done. Qed.

Lemma scan_fold dir sizeMap total :
  (fold_left scan_step dir (sizeMap, total)).1 ≡ₚ
    rev ((λ e, (d_size e, trim_ghost (d_name e))) <$> List.filter is_candidate dir) ++ sizeMap ∧
  (StronglySorted size_le sizeMap →
   StronglySorted size_le (fold_left scan_step dir (sizeMap, total)).1).
Proof.
  revert sizeMap total. induction dir as [|e dir IH]; intros sizeMap total.
  - done.
  - cbn [fold_left List.filter]. rewrite scan_step_eq.
    destruct (is_candidate e).
    + destruct (IH (multimap_emplace (d_size e) (trim_ghost (d_name e)) sizeMap)
                  ((total + d_size e) mod uintmax_modulus)%Z) as [Hperm Hsorted].
      split.
      * rewrite Hperm, multimap_emplace_perm. cbn [fmap list_fmap rev].
        by rewrite <- app_assoc.
      * intros Hs. by apply Hsorted, multimap_emplace_sorted.
    + apply IH.
Qed.

Lemma sizeMap_sorted dir : StronglySorted size_le (sizeMap_of dir).
Proof. apply scan_fold. constructor. Qed.

Lemma sizeMap_perm dir :
  sizeMap_of dir ≡ₚ
    (λ e, (d_size e, trim_ghost (d_name e))) <$> List.filter is_candidate dir.
Proof.
  unfold sizeMap_of, scan. rewrite (proj1 (scan_fold dir [] 0%Z)).
  rewrite app_nil_r. symmetry. apply Permutation_rev.
Qed.

Lemma meanFileSize_of_None dir : meanFileSize_of dir = None ↔ sizeMap_of dir = [].
Proof.
  unfold meanFileSize_of, sizeMap_of. destruct (scan dir) as [sizeMap total]. simpl.
  destruct sizeMap; simpl; split; done.
Qed.

(** *** Round-robin assignment *)

Lemma succ_div_mod k L :
  0 < L →
  (S (k mod L) = L ∧ S k mod L = 0 ∧ S k / L = S (k / L)) ∨
  (S (k mod L) < L ∧ S k mod L = S (k mod L) ∧ S k / L = k / L).
Proof.
  intros HL.
  pose proof (Nat.div_mod_eq k L) as Hk.
  pose proof (Nat.mod_upper_bound k L ltac:(lia)) as Hr.
  destruct (decide (S (k mod L) = L)) as [Heq|Hne].
  - left. split; [done|]. split.
    + symmetry. apply (Nat.mod_unique _ _ (S (k / L))); [lia|nia].
    + symmetry. apply (Nat.div_unique _ _ _ 0); [lia|nia].
  - right. split; [lia|]. split.
    + symmetry. apply (Nat.mod_unique _ _ (k / L)); [lia|nia].
    + symmetry. apply (Nat.div_unique _ _ _ (S (k mod L))); [lia|nia].
Qed.

(** The state of the loop of lines 177-183 after it went through [names]. *)
Lemma assign_fold L names :
  0 < L →
  let st := fold_left (assign_step L) names (replicate L [], 0) in
  length st.1 = L ∧
  st.2 ≤ L ∧
  (if st.2 =? L then 0 else st.2) = length names mod L ∧
  (∀ j, j < L → ∃ grp, st.1 !! j = Some grp ∧
       length grp = length names / L + (if j <? length names mod L then 1 else 0)) ∧
  (∀ i name, names !! i = Some name →
       ∃ grp, st.1 !! (i mod L) = Some grp ∧ grp !! (i / L) = Some name).
Proof.
  intros HL. induction names as [|x names IH] using rev_ind; simpl.
  - rewrite length_replicate. split; [done|]. split; [lia|].
    rewrite Nat.Div0.mod_0_l, Nat.Div0.div_0_l.
    split; [by destruct L|]. split; [|done].
    intros j Hj. exists []. by rewrite lookup_replicate_2.
  - rewrite fold_left_app. simpl.
    destruct (fold_left (assign_step L) names (replicate L [], 0)) as [groups cg].
    simpl in IH. destruct IH as (Hlen & Hcg & Hidx & Hlens & Hlook).
    unfold assign_step. cbn [fst snd]. rewrite length_alter, length_app.
    cbn [length]. rewrite Nat.add_1_r.
    set (k := length names) in *.
    set (idx := if cg =? L then 0 else cg) in *.
    pose proof (Nat.mod_upper_bound k L ltac:(lia)) as Hr.
    pose proof (succ_div_mod k L HL) as Hsucc.
    split; [done|]. split; [lia|]. split.
    { destruct (Nat.eqb_spec (S idx) L); lia. }
    split.
    + intros j Hj. destruct (Hlens j Hj) as (grp & Hgrp & Hgl).
      destruct (decide (idx = j)) as [->|Hne].
      * exists (grp ++ [x]). rewrite list_lookup_alter_eq, Hgrp. split; [done|].
        rewrite length_app. simpl.
        destruct (Nat.ltb_spec j (k mod L)), (Nat.ltb_spec j (S k mod L)); lia.
      * exists grp. rewrite list_lookup_alter_ne by done. split; [done|].
        destruct (Nat.ltb_spec j (k mod L)), (Nat.ltb_spec j (S k mod L)); lia.
    + intros i name Hi.
      destruct (decide (i < k)) as [Hlt|Hge].
      * rewrite lookup_app_l in Hi by done.
        destruct (Hlook i name Hi) as (grp & Hgrp & Hname).
        destruct (decide (idx = i mod L)) as [Heq|Hne].
        -- exists (grp ++ [x]). rewrite Heq, list_lookup_alter_eq, Hgrp.
           split; [done|]. by apply lookup_app_l_Some.
        -- exists grp. by rewrite list_lookup_alter_ne.
      * assert (i = k) as ->.
        { apply lookup_lt_Some in Hi. rewrite length_app in Hi. simpl in Hi. lia. }
        rewrite lookup_app_r in Hi by done. rewrite Nat.sub_diag in Hi.
        inversion Hi; subst name.
        destruct (Hlens (k mod L) Hr) as (grp & Hgrp & Hgl).
        exists (grp ++ [x]). rewrite <- Hidx, list_lookup_alter_eq.
        rewrite Hidx, Hgrp. split; [done|].
        rewrite Nat.ltb_irrefl, Nat.add_0_r in Hgl.
        rewrite lookup_app_r by lia. by rewrite Hgl, Nat.sub_diag.
Qed.

Lemma threadsToUse_pos p n : 0 < threadsToUse p n.
Proof. unfold threadsToUse. lia. Qed.

Lemma threadsToUse_formula p n : threadsToUse p n = Nat.max 1 (Nat.min p n).
Proof. unfold threadsToUse. lia. Qed.

Lemma pluginGroups_length L sizeMap : 0 < L → length (pluginGroups L sizeMap) = L.
Proof. intros HL. unfold pluginGroups. by apply assign_fold. Qed.

Lemma pluginGroups_lookup L sizeMap i name :
  0 < L → sizeMap.*2 !! i = Some name →
  ∃ grp, pluginGroups L sizeMap !! (i mod L) = Some grp ∧ grp !! (i / L) = Some name.
Proof. intros HL Hi. unfold pluginGroups. by apply assign_fold. Qed.

(** For every directory that holds a plugin, the number of lanes is the
    one of lines 166-167. *)
Lemma lanes_of_length p dir :
  length (lanes_of p dir) = Nat.max 1 (Nat.min p (length (candidates dir))).
Proof.
  unfold lanes_of, candidates. rewrite pluginGroups_length by apply threadsToUse_pos.
  by rewrite threadsToUse_formula, length_fmap.
Qed.

(** *** Schedules *)

Lemma Interleave_sequential {A} (idle lanes : list (list A)) :
  Forall (λ lane, lane = []) idle → Interleave (idle ++ lanes) (concat lanes).
Proof.
  revert idle. induction lanes as [|lane lanes IH]; intros idle Hidle; simpl.
  - constructor. by rewrite app_nil_r.
  - revert idle Hidle. induction lane as [|x lane IHlane]; intros idle Hidle; simpl.
    + rewrite (cons_middle [] idle lanes), app_assoc. apply IH.
      apply Forall_app. split; [done|]. by constructor.
    + apply (Interleave_turn _ (length idle) x lane).
      * by rewrite list_lookup_middle.
      * rewrite insert_app_r_alt by done. rewrite Nat.sub_diag. simpl.
        by apply IHlane.
Qed.

Lemma Interleave_concat {A} (lanes : list (list A)) : Interleave lanes (concat lanes).
Proof. apply (Interleave_sequential [] lanes). constructor. Qed.

Lemma Interleave_perm {A} (lanes : list (list A)) tr :
  Interleave lanes tr → tr ≡ₚ concat lanes.
Proof.
  induction 1 as [lanes Hnil|lanes i x rest tr Hi _ IH].
  - induction Hnil as [|lane lanes -> _ IHl]; simpl; [done|]. by rewrite <- IHl.
  - rewrite IH. rewrite <- (take_drop_middle lanes i (x :: rest)) at 2 by done.
    rewrite insert_take_drop by (by eapply lookup_lt_Some).
    rewrite !concat_app. simpl. by rewrite Permutation_middle.
Qed.

Lemma concat_alter_snoc (groups : list (list string)) idx x :
  idx < length groups →
  concat (alter (λ grp, grp ++ [x]) idx groups) ≡ₚ x :: concat groups.
Proof.
  revert idx. induction groups as [|grp groups IH]; intros idx Hidx; simpl in Hidx |- *.
  - lia.
  - destruct idx as [|idx]; simpl.
    + rewrite <- app_assoc. simpl. by rewrite <- Permutation_middle.
    + change (list_alter ?f idx groups) with (alter f idx groups).
      rewrite IH by lia. by rewrite Permutation_middle.
Qed.

Lemma assign_step_eq L groups cg x :
  assign_step L (groups, cg) x =
    (alter (λ grp, grp ++ [x]) (if cg =? L then 0 else cg) groups,
     S (if cg =? L then 0 else cg)).
Proof. done. Qed.

Lemma assign_fold_perm L names groups cg :
  0 < L → length groups = L → cg ≤ L →
  concat (fold_left (assign_step L) names (groups, cg)).1 ≡ₚ concat groups ++ names.
Proof.
  intros HL. revert groups cg.
  induction names as [|x names IH]; intros groups cg Hlen Hcg; cbn [fold_left].
  - by rewrite app_nil_r.
  - rewrite assign_step_eq.
    assert ((if cg =? L then 0 else cg) < L) as Hidx.
    { destruct (Nat.eqb_spec cg L); lia. }
    rewrite IH; [|by rewrite length_alter|lia].
    rewrite concat_alter_snoc by lia. simpl. apply Permutation_middle.
Qed.

Lemma lanes_of_perm p dir : concat (lanes_of p dir) ≡ₚ candidates dir.
Proof.
  unfold lanes_of, pluginGroups, candidates.
  rewrite assign_fold_perm.
  - clear. induction (threadsToUse p (length (sizeMap_of dir))); simpl; [done|].
    by rewrite IHn.
  - apply threadsToUse_pos.
  - apply length_replicate.
  - lia.
Qed.

Lemma schedule_candidates p dir tr name :
  Interleave (lanes_of p dir) tr → name ∈ tr ↔ name ∈ candidates dir.
Proof. intros Htr. by rewrite (Interleave_perm _ _ Htr), lanes_of_perm. Qed.

(** *** [LoadPlugins] as a whole *)

Lemma LoadPlugins_no_candidates headersOnly p dir g o :
  candidates dir = [] →
  LoadPlugins headersOnly p dir g o ↔ o = Undefined.
Proof.
  intros Hnone.
  assert (meanFileSize_of dir = None) as Hmean.
  { apply meanFileSize_of_None. unfold candidates in Hnone.
    by destruct (sizeMap_of dir). }
  unfold LoadPlugins, LoadPlugins_sched. rewrite Hmean. split.
  - by intros (tr & _ & ->).
  - intros ->. eexists. split; [apply Interleave_concat|done].
Qed.

(** The threads running one after the other is one of the schedules. *)
Lemma LoadPlugins_seq_run headersOnly p dir g :
  LoadPlugins headersOnly p dir g (LoadPlugins_seq headersOnly p dir g).
Proof. eexists. split; [apply Interleave_concat|done]. Qed.

Lemma LoadPlugins_runs headersOnly p dir g :
  ∃ o, LoadPlugins headersOnly p dir g o.
Proof. eexists. apply LoadPlugins_seq_run. Qed.

Lemma LoadPlugins_inv headersOnly p dir g o :
  candidates dir ≠ [] →
  LoadPlugins headersOnly p dir g o →
  ∃ tr, (∀ name, name ∈ tr ↔ name ∈ candidates dir) ∧
        o = match run_trace headersOnly tr (plugins g) with
            | None => Terminated
            | Some reg => Completed (set_plugins g reg (negb headersOnly))
            end.
Proof.
  intros Hsome (tr & Htr & ->). exists tr. split.
  - intros name. by eapply schedule_candidates.
  - unfold LoadPlugins_sched.
    destruct (meanFileSize_of dir) eqn:Hmean; [done|].
    apply meanFileSize_of_None in Hmean. unfold candidates in Hsome.
    by rewrite Hmean in Hsome.
Qed.

Lemma parses_inr headersOnly name :
  parses headersOnly name = true → ∃ v, Plugin_ctor name headersOnly = inr v.
Proof. unfold parses. destruct (Plugin_ctor name headersOnly); [done|by eexists]. Qed.

Lemma LoadPlugins_all_parse headersOnly p dir g o :
  candidates dir ≠ [] →
  Forall (λ name, parses headersOnly name = true) (candidates dir) →
  LoadPlugins headersOnly p dir g o →
  ∃ tr reg, (∀ name, name ∈ tr ↔ name ∈ candidates dir) ∧
            run_trace headersOnly tr (plugins g) = Some reg ∧
            o = Completed (set_plugins g reg (negb headersOnly)).
Proof.
  intros Hsome Hall Ho.
  destruct (LoadPlugins_inv _ _ _ _ _ Hsome Ho) as (tr & Htr & ->).
  destruct (run_trace_all_parse headersOnly tr (plugins g)) as [reg Hreg].
  { intros name Hin. apply parses_inr.
    rewrite Forall_forall in Hall. by apply Hall, Htr. }
  exists tr, reg. by rewrite Hreg.
Qed.

Lemma LoadPlugins_one_fails headersOnly p dir g name o :
  name ∈ candidates dir → parses headersOnly name = false →
  LoadPlugins headersOnly p dir g o → o = Terminated.
Proof.
  intros Hin Hfail Ho.
  assert (candidates dir ≠ []) as Hsome.
  { intros Hnil. rewrite Hnil in Hin. by apply elem_of_nil in Hin. }
  destruct (LoadPlugins_inv _ _ _ _ _ Hsome Ho) as (tr & Htr & ->).
  unfold parses in Hfail.
  destruct (Plugin_ctor name headersOnly) as [e|v] eqn:Hctor; [|done].
  rewrite (run_trace_failure headersOnly tr (plugins g) name e); [done| |done].
  by apply Htr.
Qed.

(** *** The claims on the loader *)


(** C6, as amended.  [LoadPlugins] never clears the registry.  For a
    directory that holds a plugin and whose candidates all parse, every
    schedule completes, and afterwards: every entry that was there before the
    call is still there, unchanged; every other entry is the record parsed
    from one of the current candidates, under its case-folded name; every
    candidate's case-folded name has an entry; the fully-loaded flag is the
    negation of [headersOnly]. *)
Theorem LoadPlugins_keeps_prior_entries headersOnly p dir g :
  candidates dir ≠ [] →
  Forall (λ name, parses headersOnly name = true) (candidates dir) →
  (∃ g', LoadPlugins headersOnly p dir g (Completed g')) ∧
  ∀ o, LoadPlugins headersOnly p dir g o →
    ∃ g', o = Completed g' ∧
      _pluginsFullyLoaded g' = negb headersOnly ∧
      (∀ key old, plugins g !! key = Some old → plugins g' !! key = Some old) ∧
      (∀ key v, plugins g' !! key = Some v →
         plugins g !! key = Some v ∨
         ∃ name, name ∈ candidates dir ∧ Plugin_ctor name headersOnly = inr v ∧
                 key = to_lower (Name v)) ∧
      (∀ name v, name ∈ candidates dir → Plugin_ctor name headersOnly = inr v →
         is_Some (plugins g' !! to_lower (Name v))).
Proof.
  intros Hsome Hall.
  assert (∀ o, LoadPlugins headersOnly p dir g o →
    ∃ g', o = Completed g' ∧
      _pluginsFullyLoaded g' = negb headersOnly ∧
      (∀ key old, plugins g !! key = Some old → plugins g' !! key = Some old) ∧
      (∀ key v, plugins g' !! key = Some v →
         plugins g !! key = Some v ∨
         ∃ name, name ∈ candidates dir ∧ Plugin_ctor name headersOnly = inr v ∧
                 key = to_lower (Name v)) ∧
      (∀ name v, name ∈ candidates dir → Plugin_ctor name headersOnly = inr v →
         is_Some (plugins g' !! to_lower (Name v)))) as Hevery.
  { intros o Ho.
    destruct (LoadPlugins_all_parse _ _ _ _ _ Hsome Hall Ho) as (tr & reg & Htr & Hreg & ->).
    eexists. split; [done|]. simpl. split; [done|]. split; [|split].
    - intros key old. by eapply run_trace_keeps.
    - intros key v Hv.
      destruct (run_trace_origin _ _ _ _ _ _ Hreg Hv) as [?|(name & Hin & ? & ?)];
        [by left|].
      right. exists name. split; [by apply Htr|done].
    - intros name v Hin Hctor. eapply run_trace_registered; [done| |done].
      by apply Htr. }
  split; [|done].
  destruct (LoadPlugins_runs headersOnly p dir g) as [o Ho].
  destruct (Hevery o Ho) as (g' & -> & _). by exists g'.
Qed.

(** C8.  The candidates are handed out round-robin over the size
    multimap, which is ascending in the file size: the candidate at
    position [i] of the multimap is entry [i / laneCount] of lane
    [i mod laneCount], so the next candidate goes to the next lane, or to
    lane 0 on wrap-around. *)
Theorem LoadPlugins_round_robin p dir i name :
  candidates dir !! i = Some name →
  let laneCount := length (lanes_of p dir) in
  StronglySorted size_le (sizeMap_of dir) ∧
  sizeMap_of dir ≡ₚ
    (λ e, (d_size e, trim_ghost (d_name e))) <$> List.filter is_candidate dir ∧
  (∃ lane, lanes_of p dir !! (i mod laneCount) = Some lane ∧
           lane !! (i / laneCount) = Some name) ∧
  (S i mod laneCount = S (i mod laneCount) ∨ S i mod laneCount = 0).
Proof.
  intros Hi laneCount.
  assert (laneCount = threadsToUse p (length (sizeMap_of dir))) as HL.
  { unfold laneCount, lanes_of. apply pluginGroups_length, threadsToUse_pos. }
  pose proof (threadsToUse_pos p (length (sizeMap_of dir))) as Hpos.
  split; [apply sizeMap_sorted|]. split; [apply sizeMap_perm|]. split.
  - rewrite HL. unfold lanes_of. by apply pluginGroups_lookup.
  - destruct (succ_div_mod i laneCount) as [(_ & ? & _)|(_ & ? & _)]; [lia|by right|by left].
Qed.

(** C9.  [IsPluginActive] looks the case-folded name up in the registry
    and answers with the record's active flag when it finds one; only when
    the name is absent it answers what [LoadOrderHandler::IsPluginActive]
    answers. *)
Theorem IsPluginActive_registry_first g pluginName :
  (∀ plugin, plugins g !! to_lower pluginName = Some plugin →
             IsPluginActive g pluginName = IsActive plugin) ∧
  (plugins g !! to_lower pluginName = None →
   IsPluginActive g pluginName = LoadOrderHandler_IsPluginActive pluginName).
Proof. unfold IsPluginActive. split; [intros plugin ->|intros ->]; done. Qed.

(** C10.  The registry is keyed by the case-folded name and [addPlugin]
    never overwrites: with the key taken the registry stays as it is, with
    the key free the plugin goes under it and no other key changes.
    [addPlugin] and [LoadPlugins] keep every record under the case-folded
    form of its own name, so that no two entries have the same case-folded
    name. *)
Theorem addPlugin_first_insertion_wins plugin reg :
  (is_Some (reg !! to_lower (Name plugin)) → addPlugin plugin reg = reg) ∧
  (reg !! to_lower (Name plugin) = None →
   addPlugin plugin reg = <[to_lower (Name plugin) := plugin]> reg) ∧
  (registry_keyed reg →
   registry_keyed (addPlugin plugin reg) ∧
   (∀ headersOnly p dir g g',
      plugins g = reg → LoadPlugins headersOnly p dir g (Completed g') →
      registry_keyed (plugins g')) ∧
   (∀ k1 k2 v1 v2,
      addPlugin plugin reg !! k1 = Some v1 → addPlugin plugin reg !! k2 = Some v2 →
      to_lower (Name v1) = to_lower (Name v2) → k1 = k2 ∧ v1 = v2)).
Proof.
  split; [apply addPlugin_present|]. split; [apply addPlugin_absent|].
  intros Hreg. split; [by apply addPlugin_keyed|]. split.
  - intros headersOnly p dir g g' <- (tr & _ & Ho).
    unfold LoadPlugins_sched in Ho.
    destruct (meanFileSize_of dir); [|done].
    destruct (run_trace headersOnly tr (plugins g)) as [reg'|] eqn:Hrun; [|done].
    inversion Ho; subst g'. simpl. by eapply run_trace_keyed.
  - intros k1 k2 v1 v2. apply registry_keyed_unique. by apply addPlugin_keyed.
Qed.

(** ** The sorter: proofs *)

(** *** The Kahn loop returns *)

Lemma find_ready_elem isMaster indeg unsorted key :
  List.find (isReady isMaster indeg unsorted) unsorted = Some key →
  key ∈ unsorted ∧ indeg !! key = Some 0.
Proof.
  intros Hfind. apply find_some in Hfind as [Hin Hready].
  split; [by apply list_elem_of_In|].
  unfold isReady in Hready. apply andb_prop in Hready as [Hzero _].
  by apply bool_decide_eq_true in Hzero.
Qed.

Lemma kahn_total fuel edges isMaster indeg unsorted out :
  length unsorted ≤ fuel →
  is_Some (kahn fuel edges isMaster indeg unsorted out).
Proof.
  revert indeg unsorted out.
  induction fuel as [|fuel IH]; intros indeg unsorted out Hfuel.
  - destruct unsorted; simpl in Hfuel; [by eexists|lia].
  - destruct unsorted as [|k unsorted]; [by eexists|].
    cbn [kahn].
    destruct (List.find _ (k :: unsorted)) as [key|] eqn:Hfind; [|by eexists].
    apply find_ready_elem in Hfind as [Hin _].
    apply IH.
    assert (length (filter (λ k', k' ≠ key) (k :: unsorted)) < length (k :: unsorted))
      as Hlt by (apply (length_filter_lt _ _ key); [done|by intros ?]).
    simpl in Hfuel, Hlt. lia.
Qed.

Lemma TopologicalSort_total keys isMaster edges :
  is_Some (TopologicalSort keys isMaster edges).
Proof. by apply kahn_total. Qed.

(** *** A cycle makes the Kahn loop fail *)

Lemma release_lookup edges key indeg k :
  release edges key indeg !! k =
    (λ n, n - length (filter (λ e, e_from e = key ∧ e_to e = k) edges)) <$> indeg !! k.
Proof.
  unfold release. revert indeg.
  induction edges as [|e edges IH]; intros indeg; cbn [fold_left].
  - destruct (indeg !! k); simpl; [f_equal; lia|done].
  - rewrite IH.
    assert (length (filter (λ e, e_from e = key ∧ e_to e = k) (e :: edges)) =
            (if decide (e_from e = key ∧ e_to e = k) then 1 else 0) +
            length (filter (λ e, e_from e = key ∧ e_to e = k) edges)) as ->.
    { rewrite filter_cons. by case_decide. }
    case_bool_decide as Hfrom.
    + rewrite lookup_alter. case_decide as Hto.
      * rewrite decide_True by done. rewrite Hto.
        destruct (indeg !! k); simpl; [f_equal; lia|done].
      * rewrite decide_False by (intros [_ ?]; done). done.
    + rewrite decide_False by (intros [? _]; done). done.
Qed.

Lemma blocked_in_remove edges unsorted key k :
  key ∈ unsorted →
  blocked_in edges (filter (λ k', k' ≠ key) unsorted) k +
    length (filter (λ e, e_from e = key ∧ e_to e = k) edges)
  ≤ blocked_in edges unsorted k.
Proof.
  intros Hkey. unfold blocked_in.
  induction edges as [|e edges IH]; [done|].
  rewrite !filter_cons.
  destruct (decide (e_to e = k ∧ e_from e ∈ filter (λ k', k' ≠ key) unsorted))
    as [[H1 H2]|H1];
  destruct (decide (e_from e = key ∧ e_to e = k)) as [[H3 H4]|H3];
  destruct (decide (e_to e = k ∧ e_from e ∈ unsorted)) as [[H5 H6]|H5];
  simpl; try lia; exfalso.
  - apply list_elem_of_filter in H2 as [Hne _]. by apply Hne.
  - apply list_elem_of_filter in H2 as [Hne _]. by apply Hne.
  - apply list_elem_of_filter in H2 as [_ Hin]. apply H5. by split.
  - apply H5. split; [done|]. by rewrite H3.
Qed.

Lemma indeg_covers_release edges indeg unsorted key :
  indeg_covers edges indeg unsorted → key ∈ unsorted →
  indeg_covers edges (release edges key indeg) (filter (λ k, k ≠ key) unsorted).
Proof.
  intros Hcov Hkey k Hk. apply list_elem_of_filter in Hk as [_ Hk].
  destruct (Hcov k Hk) as (n & Hn & Hle).
  exists (n - length (filter (λ e, e_from e = key ∧ e_to e = k) edges)).
  rewrite release_lookup, Hn. split; [done|].
  pose proof (blocked_in_remove edges unsorted key k Hkey). lia.
Qed.

Lemma blocked_in_zero edges unsorted key e :
  blocked_in edges unsorted key = 0 →
  e ∈ edges → e_to e = key → e_from e ∉ unsorted.
Proof.
  unfold blocked_in. intros Hzero He Hto Hfrom.
  apply length_zero_iff_nil in Hzero.
  assert (e ∈ filter (λ e, e_to e = key ∧ e_from e ∈ unsorted) edges) as Hin.
  { by apply list_elem_of_filter. }
  rewrite Hzero in Hin. by apply elem_of_nil in Hin.
Qed.

Lemma inDegrees_lookup keys edges key :
  key ∈ keys → inDegrees keys edges !! key = Some (inDegree edges key).
Proof.
  intros Hkey. unfold inDegrees. apply elem_of_list_to_map_1'.
  - intros n Hn. apply list_elem_of_fmap in Hn as (k & [= -> ->] & _). done.
  - apply list_elem_of_fmap. by exists key.
Qed.

Lemma indeg_covers_init keys edges : indeg_covers edges (inDegrees keys edges) keys.
Proof.
  intros key Hkey. exists (inDegree edges key).
  split; [by apply inDegrees_lookup|].
  unfold blocked_in, inDegree.
  induction edges as [|e edges IH]; [done|].
  rewrite !filter_cons.
  destruct (decide (e_to e = key)) as [Hto|Hto].
  - case_decide; simpl; lia.
  - rewrite decide_False by (intros [? _]; done). done.
Qed.

Lemma kahn_stuck edges isMaster (C : string → Prop) fuel indeg unsorted out order :
  stuck edges C →
  indeg_covers edges indeg unsorted →
  (∀ key, C key → key ∈ unsorted) →
  (∃ key, C key) →
  kahn fuel edges isMaster indeg unsorted out ≠ Some (Ordered order).
Proof.
  intros Hstuck. revert indeg unsorted out.
  induction fuel as [|fuel IH]; intros indeg unsorted out Hcov Hsub [k0 Hk0].
  - destruct unsorted as [|k unsorted].
    + apply Hsub in Hk0. by apply elem_of_nil in Hk0.
    + cbn [kahn]. by destruct (List.find _ (k :: unsorted)).
  - destruct unsorted as [|k unsorted].
    + apply Hsub in Hk0. by apply elem_of_nil in Hk0.
    + cbn [kahn].
      destruct (List.find _ (k :: unsorted)) as [key|] eqn:Hfind; [|done].
      apply find_ready_elem in Hfind as [Hin Hzero].
      apply IH.
      * by apply indeg_covers_release.
      * intros key' HC. apply list_elem_of_filter. split; [|by apply Hsub].
        intros ->.
        destruct (Hstuck key HC) as (e & He & Hto & Hfrom).
        destruct (Hcov key Hin) as (n & Hn & Hle).
        assert (n = 0) as -> by congruence.
        eapply (blocked_in_zero edges (k :: unsorted) key e); [lia|done..|].
        by apply Hsub.
      * by exists k0.
Qed.

(** A graph with a cycle among its keys is never sorted: the sorter
    returns, and what it returns is a cycle. *)
Lemma TopologicalSort_cycle keys isMaster edges (C : string → Prop) :
  stuck edges C → (∀ key, C key → key ∈ keys) → (∃ key, C key) →
  ∃ cycle, TopologicalSort keys isMaster edges = Some (Cycle cycle).
Proof.
  intros Hstuck Hsub Hne.
  destruct (TopologicalSort_total keys isMaster edges) as [[order|cycle] Hres].
  - exfalso. eapply kahn_stuck; [done|apply indeg_covers_init|done..].
  - by exists cycle.
Qed.

(** *** The graph builder *)

Lemma nodeOrder_elem g key : key ∈ nodeOrder g ↔ is_Some (plugins g !! key).
Proof.
  unfold nodeOrder. rewrite elem_of_app, !list_elem_of_filter. split.
  - intros [[Hsome _]|[_ Hin]]; [done|].
    apply list_elem_of_fmap in Hin as ([k v] & -> & Hin).
    apply elem_of_map_to_list in Hin. by eexists.
  - intros [plugin Hplugin].
    destruct (decide (key ∈ remove_dups (to_lower <$> loadOrder g))) as [Hin|Hin].
    + left. split; [by eexists|done].
    + right. split; [done|].
      apply list_elem_of_fmap. exists (key, plugin). split; [done|].
      by apply elem_of_map_to_list.
Qed.

Lemma effectiveNodes_elem g n :
  n ∈ effectiveNodes g ↔
  ∃ plugin, plugins g !! ep_key n = Some plugin ∧
    n = {| ep_key := ep_key n;
           ep_plugin := plugin;
           ep_metadata := mergedMetadata g (ep_key n);
           ep_effectivePriority := md_priority (mergedMetadata g (ep_key n));
           ep_group := if IsMaster plugin then MasterGroup else PluginGroup |}.
Proof.
  unfold effectiveNodes. rewrite list_elem_of_omap. split.
  - intros (key & Hkey & Hn).
    destruct (plugins g !! key) as [plugin|] eqn:Hplugin; [|done].
    simpl in Hn. inversion Hn; subst n. simpl. by exists plugin.
  - intros (plugin & Hplugin & Hn). exists (ep_key n). split.
    + apply nodeOrder_elem. by eexists.
    + rewrite Hplugin. simpl. f_equal. symmetry. exact Hn.
Qed.

Lemma nodeOrder_NoDup g : NoDup (nodeOrder g).
Proof.
  unfold nodeOrder. apply NoDup_app. split; [|split].
  - apply NoDup_filter, NoDup_remove_dups.
  - intros key Hin Hin'.
    apply list_elem_of_filter in Hin as [_ Hin].
    apply list_elem_of_filter in Hin' as [Hnot _]. done.
  - apply NoDup_filter, NoDup_fst_map_to_list.
Qed.

Lemma effectiveNodes_keys g :
  ep_key <$> effectiveNodes g = nodeOrder g.
Proof.
  unfold effectiveNodes.
  assert (∀ key, key ∈ nodeOrder g → is_Some (plugins g !! key)) as Hloaded.
  { intros key. apply nodeOrder_elem. }
  induction (nodeOrder g) as [|key keys IH]; [done|].
  destruct (Hloaded key ltac:(left)) as [plugin Hplugin].
  cbn [omap list_omap]. rewrite Hplugin. csimpl. f_equal.
  apply IH. intros key' Hin. apply Hloaded. by right.
Qed.

Lemma effectiveNodes_keys_NoDup g : NoDup (ep_key <$> dg_nodes (BuildGraph g).1).
Proof. simpl. rewrite effectiveNodes_keys. apply nodeOrder_NoDup. Qed.

Lemma effectiveNodes_loaded g key plugin :
  plugins g !! key = Some plugin →
  {| ep_key := key;
     ep_plugin := plugin;
     ep_metadata := mergedMetadata g key;
     ep_effectivePriority := md_priority (mergedMetadata g key);
     ep_group := if IsMaster plugin then MasterGroup else PluginGroup |}
  ∈ effectiveNodes g.
Proof. intros Hplugin. apply effectiveNodes_elem. by exists plugin. Qed.

Lemma graph_keys g key :
  key ∈ ep_key <$> dg_nodes (BuildGraph g).1 ↔ is_Some (plugins g !! key).
Proof.
  simpl. rewrite list_elem_of_fmap. split.
  - intros (n & -> & Hn). apply effectiveNodes_elem in Hn as (plugin & Hplugin & _).
    by eexists.
  - intros [plugin Hplugin]. eexists. split; [|by apply effectiveNodes_loaded]. done.
Qed.

Lemma referenceEdge_loaded g kind what n ref :
  is_Some (plugins g !! ref) →
  referenceEdge g kind what n ref = ([mkEdge ref (ep_key n) kind], []).
Proof. intros Hsome. unfold referenceEdge. by rewrite bool_decide_eq_true_2. Qed.

Lemma graph_edge_found g n found e :
  n ∈ effectiveNodes g → found ∈ nodeEdges g n → e ∈ found.1 →
  e ∈ dg_edges (BuildGraph g).1.
Proof.
  intros Hn Hfound He. simpl. apply elem_of_app. right.
  apply list_elem_of_bind. exists found. split; [done|].
  apply list_elem_of_bind. by exists n.
Qed.

Lemma graph_edge_structural g key plugin master :
  plugins g !! key = Some plugin → master ∈ to_lower <$> Masters plugin →
  is_Some (plugins g !! master) →
  mkEdge master key Structural ∈ dg_edges (BuildGraph g).1.
Proof.
  intros Hplugin Hmaster Hloaded.
  eapply graph_edge_found; [by apply effectiveNodes_loaded| |].
  - unfold nodeEdges. apply elem_of_app. left.
    apply list_elem_of_fmap_2. exact Hmaster.
  - rewrite referenceEdge_loaded by done. simpl. by left.
Qed.

Lemma graph_edge_requirement g key plugin ref :
  plugins g !! key = Some plugin → ref ∈ md_requirements (mergedMetadata g key) →
  is_Some (plugins g !! ref) →
  mkEdge ref key Requirement ∈ dg_edges (BuildGraph g).1.
Proof.
  intros Hplugin Href Hloaded.
  eapply graph_edge_found; [by apply effectiveNodes_loaded| |].
  - unfold nodeEdges. apply elem_of_app. right. apply elem_of_app. left.
    apply list_elem_of_fmap_2. simpl. by apply elem_of_elements.
  - rewrite referenceEdge_loaded by done. simpl. by left.
Qed.

Lemma graph_edge_loadAfter g key plugin ref :
  plugins g !! key = Some plugin → ref ∈ md_loadAfter (mergedMetadata g key) →
  is_Some (plugins g !! ref) →
  mkEdge ref key LoadAfter ∈ dg_edges (BuildGraph g).1.
Proof.
  intros Hplugin Href Hloaded.
  eapply graph_edge_found; [by apply effectiveNodes_loaded| |].
  - unfold nodeEdges. apply elem_of_app. right. apply elem_of_app. right.
    apply list_elem_of_fmap_2. simpl. by apply elem_of_elements.
  - rewrite referenceEdge_loaded by done. simpl. by left.
Qed.

Lemma mustPrecede_edge g a b :
  mustPrecede g a b = true →
  ∃ e, e ∈ dg_edges (BuildGraph g).1 ∧ e_from e = a ∧ e_to e = b.
Proof.
  unfold mustPrecede. intros Hab.
  apply andb_prop in Hab as [Ha Hb]. apply bool_decide_eq_true in Ha.
  destruct (plugins g !! b) as [plugin|] eqn:Hplugin; [|done].
  apply orb_prop in Hb as [Hb|Hb]; [apply orb_prop in Hb as [Hb|Hb]|];
    apply bool_decide_eq_true in Hb.
  - exists (mkEdge a b Structural). split; [|done].
    by eapply graph_edge_structural.
  - exists (mkEdge a b Requirement). split; [|done].
    by eapply graph_edge_requirement.
  - exists (mkEdge a b LoadAfter). split; [|done].
    by eapply graph_edge_loadAfter.
Qed.

Lemma mustPrecede_loaded g a b :
  mustPrecede g a b = true → is_Some (plugins g !! a) ∧ is_Some (plugins g !! b).
Proof.
  unfold mustPrecede. intros Hab.
  apply andb_prop in Hab as [Ha Hb]. apply bool_decide_eq_true in Ha.
  split; [done|]. by destruct (plugins g !! b); [eexists|].
Qed.

(** The plugins on a cycle of [mustPrecede] are stuck in the graph. *)
Lemma cycle_stuck g :
  stuck (dg_edges (BuildGraph g).1) (λ key, tc (λ a b, mustPrecede g a b = true) key key).
Proof.
  intros key Hcycle.
  assert (∃ pred, rtc (λ a b, mustPrecede g a b = true) key pred ∧
                  mustPrecede g pred key = true) as (pred & Hpath & Hlast).
  { clear -Hcycle. revert Hcycle. generalize key at 1 3 as start.
    intros start Hcycle. induction Hcycle as [x y Hxy|x y z Hxy _ IH].
    - by exists x.
    - destruct IH as (pred & Hpath & Hlast). exists pred. split; [|done].
      by eapply rtc_l. }
  destruct (mustPrecede_edge g pred key Hlast) as (e & He & Hfrom & Hto).
  exists e. split; [done|]. split; [done|]. rewrite Hfrom.
  eapply tc_rtc_r; [by apply tc_once|done].
Qed.

Lemma cycle_loaded g key :
  tc (λ a b, mustPrecede g a b = true) key key →
  key ∈ ep_key <$> dg_nodes (BuildGraph g).1.
Proof.
  intros Hcycle. apply graph_keys.
  inversion Hcycle as [x y Hxy|x y z Hxy _]; subst;
    by apply mustPrecede_loaded in Hxy as [? ?].
Qed.

(** *** The priority resolver reaches its fixpoint *)

Lemma grows_refl m : grows m m.
Proof. intros key. by destruct (m !! key). Qed.

Lemma grows_trans m1 m2 m3 : grows m1 m2 → grows m2 m3 → grows m1 m3.
Proof.
  intros H12 H23 key. specialize (H12 key). specialize (H23 key).
  destruct (m1 !! key), (m2 !! key), (m3 !! key); try done. lia.
Qed.

Lemma grows_lookup m m' key x :
  grows m m' → m !! key = Some x → ∃ y, m' !! key = Some y ∧ (x ≤ y)%Z.
Proof.
  intros Hg Hx. specialize (Hg key). rewrite Hx in Hg.
  destruct (m' !! key) as [y|]; [|done]. by exists y.
Qed.

Lemma relax_edge_grows m e : grows m (relax_edge m e).
Proof.
  unfold relax_edge. destruct (propagates e); [|apply grows_refl].
  destruct (m !! e_from e) as [pa|]; [|apply grows_refl].
  destruct (m !! e_to e) as [pb|] eqn:Hto; [|apply grows_refl].
  intros key. destruct (decide (e_to e = key)) as [<-|Hne].
  - rewrite lookup_insert_eq, Hto. lia.
  - rewrite lookup_insert_ne by done. by destruct (m !! key).
Qed.

Lemma relax_edge_within P keys m e :
  within P keys m → within P keys (relax_edge m e).
Proof.
  intros Hin. unfold relax_edge. destruct (propagates e); [|done].
  destruct (m !! e_from e) as [pa|] eqn:Hfrom; [|done].
  destruct (m !! e_to e) as [pb|] eqn:Hto; [|done].
  intros key x. destruct (decide (e_to e = key)) as [<-|Hne].
  - rewrite lookup_insert_eq. intros [= <-].
    split; [by eapply Hin|].
    destruct (Z.max_spec pb pa) as [[_ ->]|[_ ->]]; by eapply Hin.
  - rewrite lookup_insert_ne by done. apply Hin.
Qed.

Lemma relax_round_grows edges m : grows m (relax_round edges m).
Proof.
  unfold relax_round. revert m. induction edges as [|e edges IH]; intros m; simpl.
  - apply grows_refl.
  - eapply grows_trans; [apply relax_edge_grows|apply IH].
Qed.

Lemma relax_round_within P keys edges m :
  within P keys m → within P keys (relax_round edges m).
Proof.
  unfold relax_round. revert m. induction edges as [|e edges IH]; intros m Hin; simpl.
  - done.
  - by apply IH, relax_edge_within.
Qed.

Lemma relax_round_edge edges m e pa pb :
  e ∈ edges → propagates e = true →
  m !! e_from e = Some pa → m !! e_to e = Some pb →
  ∃ pb', relax_round edges m !! e_to e = Some pb' ∧ (pa ≤ pb')%Z.
Proof.
  intros He Hprop. revert m pa pb.
  induction edges as [|e0 edges IH]; intros m pa pb Hfrom Hto.
  - by apply elem_of_nil in He.
  - change (relax_round (e0 :: edges) m) with (relax_round edges (relax_edge m e0)).
    apply elem_of_cons in He as [<-|He].
    + assert (relax_edge m e !! e_to e = Some (Z.max pb pa)) as Hnew.
      { unfold relax_edge. rewrite Hprop, Hfrom, Hto. apply lookup_insert_eq. }
      destruct (grows_lookup _ _ _ _ (relax_round_grows edges (relax_edge m e)) Hnew)
        as (pb' & Hpb' & Hle).
      exists pb'. split; [done|lia].
    + destruct (grows_lookup _ _ _ _ (relax_edge_grows m e0) Hfrom) as (pa1 & Hpa1 & Hle1).
      destruct (grows_lookup _ _ _ _ (relax_edge_grows m e0) Hto) as (pb1 & Hpb1 & _).
      destruct (IH He _ _ _ Hpa1 Hpb1) as (pb' & Hpb' & Hle).
      exists pb'. split; [done|lia].
Qed.

(** At a fixpoint of the relaxation no propagating edge goes down. *)
Lemma relax_fixpoint_edge edges m e pa pb :
  relax_round edges m = m →
  e ∈ edges → propagates e = true →
  m !! e_from e = Some pa → m !! e_to e = Some pb → (pa ≤ pb)%Z.
Proof.
  intros Hfix He Hprop Hfrom Hto.
  destruct (relax_round_edge edges m e pa pb He Hprop Hfrom Hto) as (pb' & Hpb' & Hle).
  rewrite Hfix, Hto in Hpb'. by inversion Hpb'; subst.
Qed.

Lemma rank_mono P x y : (x ≤ y)%Z → rank P x ≤ rank P y.
Proof.
  intros Hxy. unfold rank. induction P as [|p P IH]; [done|].
  rewrite !filter_cons. repeat case_decide; simpl; lia.
Qed.

Lemma rank_strict P x y : x ∈ P → (x < y)%Z → rank P x < rank P y.
Proof.
  intros Hx Hxy. unfold rank. induction P as [|p P IH].
  - by apply elem_of_nil in Hx.
  - rewrite !filter_cons. apply elem_of_cons in Hx as [<-|Hx].
    + pose proof (rank_mono P x y ltac:(lia)) as Hle. unfold rank in Hle.
      rewrite decide_False by lia. rewrite decide_True by lia. simpl. lia.
    + specialize (IH Hx). repeat case_decide; simpl; lia.
Qed.

Lemma rank_bound P x : rank P x ≤ length P.
Proof. apply length_filter. Qed.

Lemma sum_list_fmap_le {A} (f h : A → nat) (l : list A) :
  (∀ y, y ∈ l → f y ≤ h y) → sum_list (f <$> l) ≤ sum_list (h <$> l).
Proof.
  induction l as [|a l IH]; intros Hle; csimpl; [done|].
  pose proof (Hle a ltac:(left)).
  assert (sum_list (f <$> l) ≤ sum_list (h <$> l))
    by (apply IH; intros; apply Hle; by right).
  lia.
Qed.

Lemma sum_list_fmap_lt {A} (f h : A → nat) (l : list A) x :
  (∀ y, y ∈ l → f y ≤ h y) → x ∈ l → f x < h x →
  sum_list (f <$> l) < sum_list (h <$> l).
Proof.
  induction l as [|a l IH]; intros Hle Hx Hlt; csimpl.
  - by apply elem_of_nil in Hx.
  - pose proof (Hle a ltac:(left)).
    assert (sum_list (f <$> l) ≤ sum_list (h <$> l))
      by (apply sum_list_fmap_le; intros; apply Hle; by right).
    apply elem_of_cons in Hx as [->|Hx]; [lia|].
    assert (sum_list (f <$> l) < sum_list (h <$> l))
      by (apply IH; [intros; apply Hle; by right|done..]).
    lia.
Qed.

Lemma potential_bound P keys m : potential P keys m ≤ length keys * length P.
Proof.
  unfold potential. induction keys as [|key keys IH]; csimpl; [done|].
  pose proof (rank_bound P (default 0%Z (m !! key))). lia.
Qed.

Lemma potential_strict P keys m m' :
  within P keys m → grows m m' → m' ≠ m →
  potential P keys m < potential P keys m'.
Proof.
  intros Hin Hg Hne.
  destruct (decide (Forall (λ key, m !! key = m' !! key) keys)) as [Hall|Hsome].
  - exfalso. apply Hne. apply map_eq. intros key.
    destruct (decide (key ∈ keys)) as [Hkey|Hkey].
    + rewrite Forall_forall in Hall. symmetry. by apply Hall.
    + specialize (Hg key). destruct (m !! key) as [x|] eqn:Hx.
      * by apply Hin in Hx as [? _].
      * by destruct (m' !! key).
  - apply not_Forall_Exists in Hsome; [|apply _].
    apply Exists_exists in Hsome as (key & Hkey & Hdiff).
    unfold potential. apply (sum_list_fmap_lt _ _ _ key); [|done|].
    + intros k _. apply rank_mono. specialize (Hg k).
      destruct (m !! k), (m' !! k); simpl; done || lia.
    + specialize (Hg key).
      assert (m !! key ≠ m' !! key) as Hd by exact Hdiff.
      destruct (m !! key) as [x|] eqn:Hx, (m' !! key) as [y|] eqn:Hy; try done.
      simpl. apply rank_strict; [by eapply Hin|].
      assert (x ≠ y) by congruence. lia.
Qed.

Lemma relax_fix_spec P keys edges fuel m :
  within P keys m →
  length keys * length P - potential P keys m < fuel →
  ∃ m', relax_fix fuel edges m = Some m' ∧ relax_round edges m' = m' ∧ grows m m'.
Proof.
  revert m. induction fuel as [|fuel IH]; intros m Hin Hfuel; [lia|].
  cbn [relax_fix]. case_decide as Hsame.
  - exists m. split; [done|]. split; [done|apply grows_refl].
  - destruct (IH (relax_round edges m)) as (m' & Hm' & Hfix & Hg).
    + by apply relax_round_within.
    + pose proof (potential_strict P keys m (relax_round edges m) Hin
                    (relax_round_grows edges m) Hsame).
      pose proof (potential_bound P keys (relax_round edges m)). lia.
    + exists m'. split; [done|]. split; [done|].
      eapply grows_trans; [apply relax_round_grows|done].
Qed.

Lemma initialPriorities_within nodes :
  within (ep_effectivePriority <$> nodes) (ep_key <$> nodes) (initialPriorities nodes).
Proof.
  intros key x Hx. apply elem_of_list_to_map_2 in Hx.
  apply list_elem_of_fmap in Hx as (n & [= -> ->] & Hn).
  split; by apply list_elem_of_fmap_2.
Qed.

(** The resolver returns, and what it returns is a fixpoint of the
    relaxation that is nowhere below the explicit priorities. *)
Lemma ResolvePriorities_spec graph :
  ∃ eff, ResolvePriorities graph = Some eff ∧
         relax_round (dg_edges graph) eff = eff ∧
         grows (initialPriorities (dg_nodes graph)) eff.
Proof.
  unfold ResolvePriorities.
  apply (relax_fix_spec (ep_effectivePriority <$> dg_nodes graph)
                        (ep_key <$> dg_nodes graph)).
  - apply initialPriorities_within.
  - rewrite !length_fmap. lia.
Qed.

Lemma initialPriorities_loaded g key :
  is_Some (plugins g !! key) →
  initialPriorities (effectiveNodes g) !! key =
    Some (md_priority (mergedMetadata g key)).
Proof.
  intros [plugin Hplugin]. unfold initialPriorities.
  apply elem_of_list_to_map_1'.
  - intros y Hy. apply list_elem_of_fmap in Hy as (n & [= -> ->] & Hn).
    apply effectiveNodes_elem in Hn as (plugin' & _ & ->). done.
  - apply list_elem_of_fmap.
    eexists. split; [|by apply effectiveNodes_loaded]. done.
Qed.

(** The effective priority of a loaded plugin is no less than that of a
    plugin it loads after. *)
Lemma resolved_loadAfter g eff a b :
  relax_round (dg_edges (BuildGraph g).1) eff = eff →
  grows (initialPriorities (effectiveNodes g)) eff →
  loadsAfter g a b = true →
  ∃ pa pb, eff !! a = Some pa ∧ eff !! b = Some pb ∧ (pb ≤ pa)%Z.
Proof.
  intros Hfix Hg Hab. unfold loadsAfter in Hab.
  apply andb_prop in Hab as [Hab Hla]. apply andb_prop in Hab as [Ha Hb].
  apply bool_decide_eq_true in Ha, Hb, Hla.
  destruct (grows_lookup _ _ _ _ Hg (initialPriorities_loaded g a Ha)) as (pa & Hpa & _).
  destruct (grows_lookup _ _ _ _ Hg (initialPriorities_loaded g b Hb)) as (pb & Hpb & _).
  exists pa, pb. split; [done|]. split; [done|].
  destruct Ha as [plugin Hplugin].
  eapply (relax_fixpoint_edge _ eff (mkEdge b a LoadAfter)); [done| |done..].
  eapply graph_edge_loadAfter; done.
Qed.

(** *** The fixpoint does not depend on the order of evaluation *)

Lemma settled_fixpoint edges m : relax_round edges m = m → settled edges m.
Proof. intros Hfix e pa pb. by apply relax_fixpoint_edge. Qed.

Lemma relax_edge_below edges m bound e :
  e ∈ edges → settled edges bound → grows m bound → grows (relax_edge m e) bound.
Proof.
  intros He Hsettled Hg. unfold relax_edge.
  destruct (propagates e) eqn:Hprop; [|done].
  destruct (m !! e_from e) as [pa|] eqn:Hfrom; [|done].
  destruct (m !! e_to e) as [pb|] eqn:Hto; [|done].
  destruct (grows_lookup _ _ _ _ Hg Hfrom) as (x & Hx & Hpa).
  destruct (grows_lookup _ _ _ _ Hg Hto) as (y & Hy & Hpb).
  pose proof (Hsettled e x y He Hprop Hx Hy) as Hxy.
  intros key. destruct (decide (e_to e = key)) as [<-|Hne].
  - rewrite lookup_insert_eq, Hy. lia.
  - rewrite lookup_insert_ne by done. apply Hg.
Qed.

Lemma relax_round_below edges some m bound :
  (∀ e, e ∈ some → e ∈ edges) → settled edges bound → grows m bound →
  grows (relax_round some m) bound.
Proof.
  unfold relax_round. revert m.
  induction some as [|e some IH]; intros m Hsub Hsettled Hg; simpl; [done|].
  apply IH; [intros e' He'; apply Hsub; by right|done|].
  eapply relax_edge_below; [|done..]. apply Hsub. by left.
Qed.

Lemma relax_fix_below fuel edges m r bound :
  relax_fix fuel edges m = Some r → settled edges bound → grows m bound →
  grows r bound.
Proof.
  revert m. induction fuel as [|fuel IH]; intros m Hr Hsettled Hg; [done|].
  cbn [relax_fix] in Hr. case_decide as Hsame.
  - by inversion Hr; subst.
  - eapply IH; [done..|]. by apply (relax_round_below edges).
Qed.

Lemma grows_antisym m1 m2 : grows m1 m2 → grows m2 m1 → m1 = m2.
Proof.
  intros H12 H21. apply map_eq. intros key.
  specialize (H12 key). specialize (H21 key).
  destruct (m1 !! key), (m2 !! key); try done. f_equal. lia.
Qed.

Lemma settled_same_edges edges1 edges2 m :
  (∀ e, e ∈ edges1 ↔ e ∈ edges2) → settled edges1 m → settled edges2 m.
Proof. intros Hsame Hs e pa pb He. apply Hs. by apply Hsame. Qed.

(** The resolver gives the same mapping in whatever order the nodes and
    the edges are handed to it. *)
Lemma ResolvePriorities_order graph1 graph2 :
  dg_nodes graph1 ≡ₚ dg_nodes graph2 →
  NoDup (ep_key <$> dg_nodes graph1) →
  (∀ e, e ∈ dg_edges graph1 ↔ e ∈ dg_edges graph2) →
  ResolvePriorities graph1 = ResolvePriorities graph2.
Proof.
  intros Hnodes Hnodup Hedges.
  assert (initialPriorities (dg_nodes graph1) = initialPriorities (dg_nodes graph2))
    as Hinit.
  { unfold initialPriorities. apply list_to_map_proper.
    - by rewrite <- list_fmap_compose.
    - by rewrite Hnodes. }
  destruct (ResolvePriorities_spec graph1) as (r1 & Hr1 & Hfix1 & Hg1).
  destruct (ResolvePriorities_spec graph2) as (r2 & Hr2 & Hfix2 & Hg2).
  rewrite Hr1, Hr2. f_equal. apply grows_antisym.
  - eapply relax_fix_below; [exact Hr1| |by rewrite Hinit].
    eapply settled_same_edges; [|by apply settled_fixpoint].
    intros e. symmetry. apply Hedges.
  - eapply relax_fix_below; [exact Hr2| |by rewrite <- Hinit].
    eapply settled_same_edges; [|by apply settled_fixpoint]. done.
Qed.

(** *** The sort session *)

Lemma sortAttempt_total g : is_Some (sortAttempt g).
Proof.
  unfold sortAttempt. cbn [BuildGraph].
  destruct (TopologicalSort_total (ep_key <$> effectiveNodes g) (λ _, true)
              (gameMasterEdges g (effectiveNodes g) ++
               (effectiveNodes g ≫= nodeEdges g) ≫= fst)) as [[order|cycle] Hhard];
    cbn [dg_nodes dg_edges]; rewrite Hhard; simpl; [|by eexists].
  destruct (ResolvePriorities_spec (BuildGraph g).1) as (eff & Heff & _).
  cbn [BuildGraph fst] in Heff. rewrite Heff. simpl.
  match goal with
  | |- is_Some (TopologicalSort ?keys ?isMaster ?edges ≫= _) =>
      destruct (TopologicalSort_total keys isMaster edges) as [r ->]
  end.
  by eexists.
Qed.

Lemma sortAttempt_inputs g1 g2 :
  plugins g1 = plugins g2 → masterlist g1 = masterlist g2 →
  userlist g1 = userlist g2 → loadOrder g1 = loadOrder g2 →
  masterFile g1 = masterFile g2 →
  sortAttempt g1 = sortAttempt g2.
Proof.
  destruct g1, g2. simpl. by intros -> -> -> -> ->.
Qed.

Lemma sortAttempt_diagnostics g newMessages result :
  sortAttempt g = Some (newMessages, result) → newMessages = (BuildGraph g).2.
Proof.
  unfold sortAttempt. cbn [BuildGraph snd]. intros Hatt.
  destruct (TopologicalSort _ _ _) as [[order|cycle]|]; simpl in Hatt;
    [|by inversion Hatt|done].
  destruct (ResolvePriorities _) as [eff|]; simpl in Hatt; [|done].
  destruct (TopologicalSort _ _ _) as [r|]; simpl in Hatt; [|done].
  by inversion Hatt.
Qed.

(** The outcome of [Sort] is a function of the registry, the two overlays,
    the load order and the master file; the message list and the error
    channel do not enter. *)
Lemma Sort_inputs g1 g2 errors1 errors2 :
  plugins g1 = plugins g2 → masterlist g1 = masterlist g2 →
  userlist g1 = userlist g2 → loadOrder g1 = loadOrder g2 →
  masterFile g1 = masterFile g2 →
  (λ r, r.1.1) <$> Sort g1 errors1 = (λ r, r.1.1) <$> Sort g2 errors2.
Proof.
  intros Hp Hm Hu Hl Hf. unfold Sort.
  rewrite (sortAttempt_inputs g1 g2 Hp Hm Hu Hl Hf).
  destruct (sortAttempt g2) as [[msgs [order|cycle]]|]; simpl; [|done..].
  by rewrite Hp.
Qed.

(** *** The order of a sort *)

Lemma find_first {A} (f : A → bool) (l : list A) x :
  List.find f l = Some x →
  ∃ before after, l = before ++ x :: after ∧ f x = true ∧
                  ∀ y, y ∈ before → f y = false.
Proof.
  induction l as [|a l IH]; [done|]. cbn [List.find].
  destruct (f a) eqn:Hfa.
  - intros [= ->]. exists [], l. split; [done|]. split; [done|].
    intros y Hy. by apply elem_of_nil in Hy.
  - intros Hfind. destruct (IH Hfind) as (before & after & -> & Hfx & Hnot).
    exists (a :: before), after. split; [done|]. split; [done|].
    intros y Hy. apply elem_of_cons in Hy as [->|Hy]; [done|by apply Hnot].
Qed.

Lemma first_split_unique {A} (P : A → Prop) before1 k1 after1 before2 k2 after2 :
  before1 ++ k1 :: after1 = before2 ++ k2 :: after2 →
  P k1 → P k2 →
  (∀ k, k ∈ before1 → ¬ P k) → (∀ k, k ∈ before2 → ¬ P k) →
  k1 = k2.
Proof.
  revert before2. induction before1 as [|a before1 IH]; intros before2 Heq H1 H2 Hn1 Hn2.
  - destruct before2 as [|b before2]; simpl in Heq; [by inversion Heq|].
    inversion Heq; subst. exfalso. apply (Hn2 b); [by left|done].
  - destruct before2 as [|b before2]; simpl in Heq.
    + inversion Heq; subst. exfalso. apply (Hn1 k2); [by left|done].
    + inversion Heq; subst. apply (IH before2); [done..| |].
      * intros k Hk. apply Hn1. by right.
      * intros k Hk. apply Hn2. by right.
Qed.

Lemma filter_ne_notin (key : string) (l : list string) :
  key ∉ l → filter (λ k, k ≠ key) l = l.
Proof.
  induction l as [|a l IH]; [done|]. intros Hnot.
  apply not_elem_of_cons in Hnot as [Hne Hnot].
  rewrite filter_cons, decide_True by done. by rewrite IH.
Qed.

Lemma filter_ne_split (key : string) (before after : list string) :
  NoDup (before ++ key :: after) →
  filter (λ k, k ≠ key) (before ++ key :: after) = before ++ after.
Proof.
  intros Hnd. apply NoDup_app in Hnd as (_ & Hdisj & Hnd).
  apply NoDup_cons in Hnd as [Hafter _].
  rewrite filter_app, filter_cons, decide_False by (intros Hne; by apply Hne).
  rewrite !filter_ne_notin; [done|done|].
  intros Hin. apply (Hdisj key Hin). by left.
Qed.

(** The counters against the edges. *)

Lemma blocked_in_split edges unsorted key k :
  key ∈ unsorted →
  blocked_in edges (filter (λ k', k' ≠ key) unsorted) k +
    length (filter (λ e, e_from e = key ∧ e_to e = k) edges)
  = blocked_in edges unsorted k.
Proof.
  intros Hkey. unfold blocked_in.
  induction edges as [|e edges IH]; [done|].
  rewrite !filter_cons.
  destruct (decide (e_to e = k ∧ e_from e ∈ filter (λ k', k' ≠ key) unsorted))
    as [[H1 H2]|H1];
  destruct (decide (e_from e = key ∧ e_to e = k)) as [[H3 H4]|H3];
  destruct (decide (e_to e = k ∧ e_from e ∈ unsorted)) as [[H5 H6]|H5];
  simpl; try lia; exfalso.
  - apply list_elem_of_filter in H2 as [Hne _]. by apply Hne.
  - apply list_elem_of_filter in H2 as [Hne _]. by apply Hne.
  - apply list_elem_of_filter in H2 as [_ Hin]. apply H5. by split.
  - apply H5. split; [done|]. by rewrite H3.
  - apply H1. split; [done|]. apply list_elem_of_filter. split; [|done].
    intros Heq. apply H3. by split.
Qed.

Lemma blocked_in_free edges unsorted key :
  blocked_in edges unsorted key = 0 ↔
  ∀ e, e ∈ edges → e_to e = key → e_from e ∉ unsorted.
Proof.
  split.
  - intros Hzero e. by apply blocked_in_zero.
  - intros Hfree. unfold blocked_in.
    induction edges as [|e edges IH]; [done|].
    rewrite filter_cons. rewrite decide_False.
    + apply IH. intros e' He'. apply Hfree. by right.
    + intros [Hto Hfrom]. apply (Hfree e); [by left|done..].
Qed.

Lemma indeg_exact_init keys edges :
  (∀ e, e ∈ edges → e_from e ∈ keys) →
  indeg_exact edges (inDegrees keys edges) keys.
Proof.
  intros Hclosed key Hkey. rewrite inDegrees_lookup by done. f_equal.
  unfold blocked_in, inDegree.
  induction edges as [|e edges IH]; [done|].
  assert (e_from e ∈ keys) as Hfrom by (apply Hclosed; by left).
  rewrite !filter_cons.
  destruct (decide (e_to e = key)) as [Hto|Hto].
  - rewrite decide_True by done. simpl. f_equal. apply IH.
    intros e' He'. apply Hclosed. by right.
  - rewrite decide_False by (intros [? _]; done). apply IH.
    intros e' He'. apply Hclosed. by right.
Qed.

Lemma indeg_exact_release edges indeg unsorted key :
  indeg_exact edges indeg unsorted → key ∈ unsorted →
  indeg_exact edges (release edges key indeg) (filter (λ k, k ≠ key) unsorted).
Proof.
  intros Hex Hkey k Hk. apply list_elem_of_filter in Hk as [_ Hk].
  rewrite release_lookup, (Hex k Hk). simpl. f_equal.
  pose proof (blocked_in_split edges unsorted key k Hkey). lia.
Qed.

(** With exact counters, the nodes that [isReady] lets through are the
    nodes that may be taken. *)
Lemma isReady_takeable edges isMaster indeg unsorted key :
  indeg_exact edges indeg unsorted → key ∈ unsorted →
  isReady isMaster indeg unsorted key = true ↔ takeable edges isMaster unsorted key.
Proof.
  intros Hex Hkey. unfold isReady, takeable.
  rewrite andb_true_iff, bool_decide_eq_true, (Hex key Hkey), orb_true_iff.
  rewrite forallb_forall. split.
  - intros [[= Hzero] Hgroup]. split; [done|]. split.
    + by apply blocked_in_free.
    + destruct Hgroup as [Hm|Hall]; [by left|right].
      intros k Hk. apply list_elem_of_In, Hall in Hk.
      by apply negb_true_iff in Hk.
  - intros (_ & Hfree & Hgroup). split.
    + f_equal. by apply blocked_in_free.
    + destruct Hgroup as [Hm|Hall]; [by left|right].
      intros k Hk. apply negb_true_iff, Hall. by apply list_elem_of_In.
Qed.

(** The Kahn loop takes the first node that may be taken, every time. *)
Lemma kahn_run fuel edges isMaster indeg unsorted out order :
  indeg_exact edges indeg unsorted →
  kahn fuel edges isMaster indeg unsorted out = Some (Ordered order) →
  ∃ rest, order = out ++ rest ∧
          kahnRun (firstTakeable edges isMaster) unsorted rest.
Proof.
  revert indeg unsorted out.
  induction fuel as [|fuel IH]; intros indeg unsorted out Hex Hkahn.
  - destruct unsorted as [|k unsorted]; cbn [kahn] in Hkahn.
    + inversion Hkahn; subst. exists []. rewrite app_nil_r. split; [done|constructor].
    + by destruct (List.find _ (k :: unsorted)).
  - destruct unsorted as [|k unsorted]; cbn [kahn] in Hkahn.
    + inversion Hkahn; subst. exists []. rewrite app_nil_r. split; [done|constructor].
    + destruct (List.find _ (k :: unsorted)) as [key|] eqn:Hfind; [|done].
      apply find_first in Hfind as (before & after & Hsplit & Hready & Hnot).
      assert (key ∈ k :: unsorted) as Hkey.
      { rewrite Hsplit. apply elem_of_app. right. by left. }
      apply IH in Hkahn as (rest & -> & Hrun); [|by apply indeg_exact_release].
      exists (key :: rest). split; [by rewrite <- app_assoc|].
      constructor; [|done]. exists before, after. split; [done|]. split.
      * by apply (isReady_takeable edges isMaster indeg).
      * intros k' Hk' Htake.
        apply (isReady_takeable edges isMaster indeg) in Htake; [|done|].
        -- by rewrite (Hnot k' Hk') in Htake.
        -- rewrite Hsplit. apply elem_of_app. by left.
Qed.

Lemma TopologicalSort_run keys isMaster edges order :
  (∀ e, e ∈ edges → e_from e ∈ keys) →
  TopologicalSort keys isMaster edges = Some (Ordered order) →
  kahnRun (firstTakeable edges isMaster) keys order.
Proof.
  intros Hclosed Hsort. unfold TopologicalSort in Hsort.
  apply (kahn_run _ edges) in Hsort as (rest & -> & Hrun); [done|].
  by apply indeg_exact_init.
Qed.

(** The tie-break rule leaves one node to take, and so one order. *)
Lemma firstTakeable_unique edges isMaster unsorted key1 key2 :
  firstTakeable edges isMaster unsorted key1 →
  firstTakeable edges isMaster unsorted key2 →
  key1 = key2.
Proof.
  intros (b1 & a1 & Hs1 & Ht1 & Hn1) (b2 & a2 & Hs2 & Ht2 & Hn2).
  apply (first_split_unique (takeable edges isMaster unsorted) b1 key1 a1 b2 key2 a2);
    [by rewrite <- Hs1, <- Hs2|done..].
Qed.

Lemma kahnRun_unique edges isMaster unsorted order1 order2 :
  kahnRun (firstTakeable edges isMaster) unsorted order1 →
  kahnRun (firstTakeable edges isMaster) unsorted order2 →
  order1 = order2.
Proof.
  intros Hrun1. revert order2.
  induction Hrun1 as [|unsorted key order1 Hchoose Hrun1 IH]; intros order2 Hrun2.
  - inversion Hrun2 as [|? key ? (b & a & Hs & _) ?]; [done|].
    by destruct b.
  - inversion Hrun2 as [Hnil|? key2 order2' Hchoose2 Hrun2']; subst.
    + destruct Hchoose as (b & a & Hs & _). by destruct b.
    + rewrite (firstTakeable_unique _ _ _ _ _ Hchoose2 Hchoose) in *.
      f_equal. by apply IH.
Qed.

Lemma kahnRun_perm edges isMaster unsorted order :
  NoDup unsorted →
  kahnRun (firstTakeable edges isMaster) unsorted order →
  order ≡ₚ unsorted.
Proof.
  intros Hnd Hrun.
  induction Hrun as [|unsorted key order Hchoose Hrun IH]; [done|].
  destruct Hchoose as (before & after & Hs & _).
  rewrite IH by (by apply NoDup_filter).
  rewrite Hs in *. rewrite filter_ne_split by done.
  apply Permutation_middle.
Qed.

(** Without the tie-break rule two nodes of the plugin group with no edge
    between them can be taken in either order. *)
Lemma kahnRun_two_free (isMaster : string → bool) (a b : string) :
  a ≠ b → isMaster a = false → isMaster b = false →
  kahnRun (takeable [] isMaster) [b; a] [a; b] ∧
  kahnRun (takeable [] isMaster) [b; a] [b; a].
Proof.
  intros Hne Ha Hb.
  assert (∀ unsorted key, key ∈ unsorted → unsorted ⊆ [b; a] →
            takeable [] isMaster unsorted key) as Htake.
  { intros unsorted key Hkey Hsub. split; [done|]. split.
    - intros e He. by apply elem_of_nil in He.
    - right. intros k Hk. apply Hsub in Hk.
      apply elem_of_cons in Hk as [->|Hk]; [done|].
      by apply list_elem_of_singleton in Hk as ->. }
  assert (filter (λ k, k ≠ a) [b; a] = [b]) as Hfa.
  { rewrite filter_cons, decide_True by done.
    by rewrite filter_cons, decide_False by (intros H; by apply H). }
  assert (filter (λ k, k ≠ b) [b; a] = [a]) as Hfb.
  { rewrite filter_cons, decide_False by (intros H; by apply H).
    by rewrite filter_cons, decide_True by done. }
  assert (∀ k : string, filter (λ k', k' ≠ k) [k] = []) as Hlast.
  { intros k. by rewrite filter_cons, decide_False by (intros H; by apply H). }
  split.
  - apply kahnRun_take; [apply Htake; [by right; left|done]|]. rewrite Hfa.
    apply kahnRun_take; [apply Htake; [by left|]|].
    + intros k Hk. apply list_elem_of_singleton in Hk as ->. by left.
    + rewrite Hlast. constructor.
  - apply kahnRun_take; [apply Htake; [by left|done]|]. rewrite Hfb.
    apply kahnRun_take; [apply Htake; [by left|]|].
    + intros k Hk. apply list_elem_of_singleton in Hk as ->. by right; left.
    + rewrite Hlast. constructor.
Qed.

(** *** The graph that is sorted *)

Lemma setPriorities_keys eff nodes :
  ep_key <$> setPriorities eff nodes = ep_key <$> nodes.
Proof. unfold setPriorities. rewrite <- list_fmap_compose. by apply list_fmap_ext. Qed.

Lemma priorityEdge_from a b e :
  e ∈ priorityEdge a b → e_from e = ep_key a ∨ e_from e = ep_key b.
Proof.
  unfold priorityEdge. intros He.
  destruct (_ =? _)%Z; [by apply elem_of_nil in He|].
  destruct (_ || _); [|by apply elem_of_nil in He].
  destruct (_ <? _)%Z; apply list_elem_of_singleton in He as ->; [by left|by right].
Qed.

Lemma graph_edge_from g e :
  e ∈ dg_edges (BuildGraph g).1 → is_Some (plugins g !! e_from e).
Proof.
  simpl. intros He. apply elem_of_app in He as [He|He].
  - unfold gameMasterEdges in He. case_bool_decide as Hgm.
    + apply list_elem_of_fmap in He as (n & -> & _). done.
    + by apply elem_of_nil in He.
  - apply list_elem_of_bind in He as (found & He & Hfound).
    apply list_elem_of_bind in Hfound as (n & Hfound & _).
    unfold nodeEdges in Hfound.
    assert (∃ kind what ref, found = referenceEdge g kind what n ref)
      as (kind & what & ref & ->).
    { apply elem_of_app in Hfound as [Hfound|Hfound];
        [|apply elem_of_app in Hfound as [Hfound|Hfound]];
        apply list_elem_of_fmap in Hfound as (ref & -> & _); by eexists _, _, _. }
    unfold referenceEdge in He. case_bool_decide as Href.
    + apply list_elem_of_singleton in He as ->. done.
    + by apply elem_of_nil in He.
Qed.

Lemma sortEdges_closed g eff e :
  e ∈ sortEdges g eff → e_from e ∈ nodeOrder g.
Proof.
  unfold sortEdges. intros He. apply elem_of_app in He as [He|He].
  - by apply nodeOrder_elem, graph_edge_from.
  - cbn [BuildGraph fst dg_nodes] in He. unfold priorityEdges in He.
    apply list_elem_of_bind in He as (a & He & Ha).
    apply list_elem_of_bind in He as (b & He & Hb).
    rewrite <- effectiveNodes_keys, <- (setPriorities_keys eff).
    apply priorityEdge_from in He as [->| ->]; by apply list_elem_of_fmap_2.
Qed.

(** A successful attempt is the run of the topological sorter on the hard
    edges and the priority edges of the resolved priorities. *)
Lemma sortAttempt_ordered g newMessages order :
  sortAttempt g = Some (newMessages, Ordered order) →
  ∃ eff, ResolvePriorities (BuildGraph g).1 = Some eff ∧
         TopologicalSort (nodeOrder g) (sortMasters g eff) (sortEdges g eff) =
           Some (Ordered order).
Proof.
  unfold sortAttempt, sortMasters, sortEdges. cbn [BuildGraph fst dg_nodes dg_edges].
  rewrite effectiveNodes_keys. intros Hatt.
  destruct (TopologicalSort (nodeOrder g) (λ _, true) _) as [[hard|cycle]|];
    simpl in Hatt; [|done..].
  destruct (ResolvePriorities _) as [eff|]; simpl in Hatt; [|done].
  exists eff. split; [done|].
  destruct (TopologicalSort (nodeOrder g) _ _) as [r|]; simpl in Hatt; [|done].
  by inversion Hatt.
Qed.

Lemma omap_loaded (m : gmap string Plugin) (order : list string) :
  (∀ key, key ∈ order → is_Some (m !! key)) →
  Forall2 (λ key plugin, m !! key = Some plugin) order (omap (λ key, m !! key) order).
Proof.
  induction order as [|key order IH]; intros Hloaded; [constructor|].
  destruct (Hloaded key ltac:(left)) as [plugin Hplugin].
  cbn [omap list_omap]. rewrite Hplugin. constructor; [done|].
  apply IH. intros key' Hin. apply Hloaded. by right.
Qed.

(** *** The diagnostics of a sort *)

Lemma referenceEdge_diagnostic g kind what n ref msg :
  msg ∈ (referenceEdge g kind what n ref).2 ↔
  plugins g !! ref = None ∧
  msg = String.append (Name (ep_plugin n)) (String.append what ref).
Proof.
  unfold referenceEdge. case_bool_decide as Href; simpl.
  - split; [intros Hin; by apply elem_of_nil in Hin|].
    intros [Hnone _]. rewrite Hnone in Href. by destruct Href.
  - rewrite list_elem_of_singleton. split; [|by intros [_ ->]].
    intros ->. split; [|done].
    destruct (plugins g !! ref) eqn:Hp; [|done]. exfalso. apply Href. by eexists.
Qed.

Lemma BuildGraph_diagnostics g msg :
  msg ∈ (BuildGraph g).2 ↔ dangling g msg.
Proof.
  cbn [BuildGraph snd]. rewrite list_elem_of_bind. split.
  - intros (found & Hmsg & Hfound).
    apply list_elem_of_bind in Hfound as (n & Hfound & Hn).
    apply effectiveNodes_elem in Hn as (plugin & Hplugin & Hn).
    unfold nodeEdges in Hfound. rewrite Hn in Hfound. cbn [ep_plugin ep_metadata] in Hfound.
    apply elem_of_app in Hfound as [Hfound|Hfound];
      [|apply elem_of_app in Hfound as [Hfound|Hfound]];
      apply list_elem_of_fmap in Hfound as (ref & -> & Href);
      apply referenceEdge_diagnostic in Hmsg as [Hnone ->];
      [exists (ep_key n), plugin, " has a master that is not loaded: ", ref
      |exists (ep_key n), plugin, " requires a plugin that is not loaded: ", ref
      |exists (ep_key n), plugin, " loads after a plugin that is not loaded: ", ref];
      (split; [done|]); (split; [done|]); (split; [done|]).
    + by left.
    + right. left. split; [done|]. by apply elem_of_elements.
    + right. right. split; [done|]. by apply elem_of_elements.
  - intros (key & plugin & what & ref & Hplugin & Hnone & -> & Hwhich).
    pose proof (effectiveNodes_loaded g key plugin Hplugin) as Hn.
    set (n := {| ep_key := key; ep_plugin := plugin;
                 ep_metadata := mergedMetadata g key;
                 ep_effectivePriority := md_priority (mergedMetadata g key);
                 ep_group := if IsMaster plugin then MasterGroup else PluginGroup |})
      in Hn.
    destruct Hwhich as [[-> Href]|[[-> Href]|[-> Href]]].
    + exists (referenceEdge g Structural " has a master that is not loaded: " n ref).
      split; [by apply referenceEdge_diagnostic|].
      apply list_elem_of_bind. exists n. split; [|done].
      unfold nodeEdges. apply elem_of_app. left.
      by apply list_elem_of_fmap_2.
    + exists (referenceEdge g Requirement " requires a plugin that is not loaded: " n ref).
      split; [by apply referenceEdge_diagnostic|].
      apply list_elem_of_bind. exists n. split; [|done].
      unfold nodeEdges. apply elem_of_app. right. apply elem_of_app. left.
      apply list_elem_of_fmap_2. by apply elem_of_elements.
    + exists (referenceEdge g LoadAfter " loads after a plugin that is not loaded: " n ref).
      split; [by apply referenceEdge_diagnostic|].
      apply list_elem_of_bind. exists n. split; [|done].
      unfold nodeEdges. apply elem_of_app. right. apply elem_of_app. right.
      apply list_elem_of_fmap_2. by apply elem_of_elements.
Qed.

(** *** The claims on the sorter *)

(** C1.  [Sort] called twice over unchanged input: the first call
    returns; the second call, made on the game as the first one left it,
    returns too, and with the same result, the same sequence of plugins or
    the same cycle.  The sequence is fixed by the input through the
    tie-break rule: it holds the record of every loaded plugin once, its
    keys are a run of the Kahn loop in which every node taken is the first
    in tie-break order of the nodes that may be taken, and there is no other
    such run. *)
Theorem Sort_deterministic g errors :
  ∃ result g' errors',
    Sort g errors = Some (result, g', errors') ∧
    (∃ g'' errors'', Sort g' errors' = Some (result, g'', errors'')) ∧
    ∀ sorted, result = Sorted sorted →
      ∃ eff order,
        ResolvePriorities (BuildGraph g).1 = Some eff ∧
        Forall2 (λ key plugin, plugins g !! key = Some plugin) order sorted ∧
        order ≡ₚ nodeOrder g ∧
        kahnRun (firstTakeable (sortEdges g eff) (sortMasters g eff))
                (nodeOrder g) order ∧
        ∀ order', kahnRun (firstTakeable (sortEdges g eff) (sortMasters g eff))
                          (nodeOrder g) order' →
                  order' = order.
Proof.
  destruct (sortAttempt_total g) as [[msgs [order|cycle]] Hatt].
  - exists (Sorted (omap (λ key, plugins g !! key) order)),
           (set_messages g msgs), errors.
    unfold Sort at 1. rewrite Hatt. split; [done|]. split.
    + exists (set_messages g msgs), errors. unfold Sort.
      rewrite (sortAttempt_inputs (set_messages g msgs) g) by done.
      by rewrite Hatt.
    + intros sorted [= <-].
      destruct (sortAttempt_ordered g msgs order Hatt) as (eff & Heff & Hsort).
      apply TopologicalSort_run in Hsort; [|apply sortEdges_closed].
      pose proof (kahnRun_perm _ _ _ _ (nodeOrder_NoDup g) Hsort) as Hperm.
      exists eff, order. split; [done|]. split; [|split; [done|split; [done|]]].
      * apply omap_loaded. intros key Hkey. apply nodeOrder_elem.
        by rewrite <- Hperm.
      * intros order' Hrun'. by eapply kahnRun_unique.
  - exists (CyclicDependencyError cycle), g, (errors ++ [describeCycle cycle]).
    unfold Sort at 1. rewrite Hatt. split; [done|]. split; [|done].
    exists g, ((errors ++ [describeCycle cycle]) ++ [describeCycle cycle]).
    unfold Sort. by rewrite Hatt.
Qed.

(** C2.  When the loaded plugins with their masters, requirements and
    load-after entries contain a cycle, [Sort] returns a
    [CyclicDependencyError] and no order; the game, with the messages it
    had, is left as it was, and the cycle is described on the error
    channel. *)
Theorem Sort_cycle_fails g errors key :
  tc (λ a b, mustPrecede g a b = true) key key →
  ∃ cycle, Sort g errors =
             Some (CyclicDependencyError cycle, g, errors ++ [describeCycle cycle]).
Proof.
  intros Hcycle.
  destruct (TopologicalSort_cycle (ep_key <$> dg_nodes (BuildGraph g).1) (λ _, true)
              (dg_edges (BuildGraph g).1)
              (λ key, tc (λ a b, mustPrecede g a b = true) key key))
    as [cycle Hhard].
  - apply cycle_stuck.
  - apply cycle_loaded.
  - by exists key.
  - exists cycle. unfold Sort, sortAttempt. cbn [BuildGraph].
    cbn [BuildGraph fst dg_nodes dg_edges] in Hhard. cbn [dg_nodes dg_edges].
    by rewrite Hhard.
Qed.

(** C3.  When [Sort] succeeds, the message list of the game is the list
    that this sort produced, whatever the list was before: its entries are
    the diagnostics on the references of loaded plugins to plugins that are
    not loaded, nothing of the old list stays for having been there, and
    when the sort produced no diagnostic the list is empty.  Nothing else of
    the game changes, and nothing goes to the error channel. *)
Theorem Sort_success_replaces_messages g errors order g' errors' :
  Sort g errors = Some (Sorted order, g', errors') →
  messages g' = (BuildGraph g).2 ∧
  (∀ msg, msg ∈ messages g' ↔ dangling g msg) ∧
  (∀ old, (BuildGraph (set_messages g old)).2 = (BuildGraph g).2) ∧
  ((∀ msg, ¬ dangling g msg) → messages g' = []) ∧
  g' = set_messages g (BuildGraph g).2 ∧
  plugins g' = plugins g ∧
  _pluginsFullyLoaded g' = _pluginsFullyLoaded g ∧
  masterlist g' = masterlist g ∧
  userlist g' = userlist g ∧
  loadOrder g' = loadOrder g ∧
  masterFile g' = masterFile g ∧
  errors' = errors.
Proof.
  unfold Sort. intros Hsort.
  destruct (sortAttempt g) as [[msgs [keys|cycle]]|] eqn:Hatt; simpl in Hsort;
    [|done..].
  apply sortAttempt_diagnostics in Hatt as ->.
  inversion Hsort; subst. cbn [set_messages messages plugins _pluginsFullyLoaded
    masterlist userlist loadOrder masterFile].
  split; [done|]. split; [apply BuildGraph_diagnostics|]. split; [done|].
  split; [|done].
  intros Hnone. destruct ((BuildGraph g).2) as [|msg rest] eqn:Hmsgs; [done|].
  exfalso. apply (Hnone msg), BuildGraph_diagnostics. rewrite Hmsgs. by left.
Qed.

(** C4.  When [a] loads after [b], directly or through a chain of
    load-after entries of any length, the resolver returns a mapping in
    which the effective priority of [a] is at least the explicit priority
    of [b].  The order does not matter: the entries of the user overlay can
    be registered in either order, and the nodes and edges of the graph can
    be gone through in any order; the resolver's mapping is the same. *)
Theorem priorities_inherited_along_loadAfter g :
  (∀ a b, tc (λ x y, loadsAfter g x y = true) a b →
     ∃ eff pa, ResolvePriorities (BuildGraph g).1 = Some eff ∧
               eff !! a = Some pa ∧
               (md_priority (mergedMetadata g b) ≤ pa)%Z) ∧
  (∀ ka ea kb eb, ka ≠ kb →
     ResolvePriorities (BuildGraph (AddPlugin ka ea (AddPlugin kb eb g))).1 =
     ResolvePriorities (BuildGraph (AddPlugin kb eb (AddPlugin ka ea g))).1) ∧
  (∀ nodes edges,
     nodes ≡ₚ dg_nodes (BuildGraph g).1 →
     (∀ e, e ∈ edges ↔ e ∈ dg_edges (BuildGraph g).1) →
     ResolvePriorities {| dg_nodes := nodes; dg_edges := edges |} =
     ResolvePriorities (BuildGraph g).1).
Proof.
  split; [|split].
  - intros a b Hchain.
    destruct (ResolvePriorities_spec (BuildGraph g).1) as (eff & Heff & Hfix & Hg).
    exists eff.
    assert (∃ pa, eff !! a = Some pa ∧ (md_priority (mergedMetadata g b) ≤ pa)%Z)
      as (pa & Hpa & Hle); [|by exists pa].
    induction Hchain as [a b Hab|a c b Hac _ IH].
    + destruct (resolved_loadAfter g eff a b Hfix Hg Hab) as (pa & pb & Hpa & Hpb & Hle).
      exists pa. split; [done|].
      assert (is_Some (plugins g !! b)) as Hb.
      { unfold loadsAfter in Hab. apply andb_prop in Hab as [Hab _].
        apply andb_prop in Hab as [_ Hb]. by apply bool_decide_eq_true in Hb. }
      destruct (grows_lookup _ _ _ _ Hg (initialPriorities_loaded g b Hb))
        as (pb' & Hpb' & Hle').
      assert (pb' = pb) as -> by congruence. lia.
    + destruct IH as (pc & Hpc & Hle).
      destruct (resolved_loadAfter g eff a c Hfix Hg Hac) as (pa & pc' & Hpa & Hpc' & Hle').
      assert (pc' = pc) as -> by congruence.
      exists pa. split; [done|lia].
  - intros ka ea kb eb Hne. unfold AddPlugin, set_userlist. simpl.
    by rewrite insert_insert_ne.
  - intros nodes edges Hnodes Hedges. symmetry.
    apply ResolvePriorities_order; [done|apply effectiveNodes_keys_NoDup|].
    intros e. symmetry. apply Hedges.
Qed.

(** ** More on the loader *)

(** *** The schedule of the threads *)

Lemma run_trace_parses headersOnly tr reg reg' name :
  run_trace headersOnly tr reg = Some reg' → name ∈ tr →
  ∃ v, Plugin_ctor name headersOnly = inr v.
Proof.
  intros Hrun Hin.
  destruct (Plugin_ctor name headersOnly) as [e|v] eqn:Hctor; [|by exists v].
  by rewrite (run_trace_failure headersOnly tr reg name e) in Hrun.
Qed.

Lemma run_trace_agree headersOnly tr1 tr2 reg reg1 reg2 :
  (∀ name, name ∈ tr1 ↔ name ∈ tr2) →
  (∀ n1 n2 v1 v2, n1 ∈ tr1 → n2 ∈ tr1 →
     Plugin_ctor n1 headersOnly = inr v1 → Plugin_ctor n2 headersOnly = inr v2 →
     to_lower (Name v1) = to_lower (Name v2) → v1 = v2) →
  run_trace headersOnly tr1 reg = Some reg1 →
  run_trace headersOnly tr2 reg = Some reg2 →
  reg1 = reg2.
Proof.
  intros Hsame Hagree Hrun1 Hrun2.
  assert (∀ tr tr' r r' key v,
            (∀ name, name ∈ tr ↔ name ∈ tr') →
            (∀ n1 n2 v1 v2, n1 ∈ tr → n2 ∈ tr →
               Plugin_ctor n1 headersOnly = inr v1 → Plugin_ctor n2 headersOnly = inr v2 →
               to_lower (Name v1) = to_lower (Name v2) → v1 = v2) →
            run_trace headersOnly tr reg = Some r →
            run_trace headersOnly tr' reg = Some r' →
            r !! key = Some v → r' !! key = Some v) as Hone.
  { intros tr tr' r r' key v Hs Ha Hr Hr' Hv.
    destruct (run_trace_origin _ _ _ _ _ _ Hr Hv) as [Hold|(name & Hin & Hctor & ->)].
    - by eapply run_trace_keeps.
    - destruct (run_trace_registered _ _ _ _ name v Hr' ltac:(by apply Hs) Hctor)
        as [v' Hv'].
      destruct (run_trace_origin _ _ _ _ _ _ Hr' Hv') as [Hold|(name' & Hin' & Hctor' & Hkey)].
      + pose proof (run_trace_keeps _ _ _ _ _ _ Hr Hold) as Hv2. congruence.
      + rewrite Hv'. f_equal. symmetry.
        apply (Ha name name' v v' Hin ltac:(by apply Hs) Hctor Hctor' Hkey). }
  apply map_eq. intros key.
  destruct (reg1 !! key) as [v|] eqn:H1.
  - symmetry. by eapply (Hone tr1 tr2).
  - destruct (reg2 !! key) as [v|] eqn:H2; [|done].
    assert (reg1 !! key = Some v) as Hv; [|congruence].
    eapply (Hone tr2 tr1); [| |done..].
    + intros name. symmetry. apply Hsame.
    + intros n1 n2 v1 v2 Hn1 Hn2. apply Hagree; by apply Hsame.
Qed.

(** X1.  When no two different records of the candidates have the same
    case-folded name, what [LoadPlugins] comes to does not depend on the
    schedule of the threads. *)
Theorem LoadPlugins_schedule_independent headersOnly p dir g o1 o2 :
  (∀ n1 n2 v1 v2, n1 ∈ candidates dir → n2 ∈ candidates dir →
     Plugin_ctor n1 headersOnly = inr v1 → Plugin_ctor n2 headersOnly = inr v2 →
     to_lower (Name v1) = to_lower (Name v2) → v1 = v2) →
  LoadPlugins headersOnly p dir g o1 →
  LoadPlugins headersOnly p dir g o2 →
  o1 = o2.
Proof.
  intros Hagree Ho1 Ho2.
  destruct (decide (candidates dir = [])) as [Hnone|Hsome].
  { apply LoadPlugins_no_candidates in Ho1, Ho2; [|done..]. congruence. }
  destruct (decide (Forall (λ name, parses headersOnly name = true) (candidates dir)))
    as [Hall|Hfail].
  - destruct (LoadPlugins_all_parse _ _ _ _ _ Hsome Hall Ho1) as (tr1 & reg1 & Htr1 & Hreg1 & ->).
    destruct (LoadPlugins_all_parse _ _ _ _ _ Hsome Hall Ho2) as (tr2 & reg2 & Htr2 & Hreg2 & ->).
    f_equal. f_equal.
    eapply (run_trace_agree headersOnly tr1 tr2); [| |done..].
    + intros name. by rewrite Htr1, Htr2.
    + intros n1 n2 v1 v2 Hn1 Hn2. apply Hagree; by apply Htr1.
  - apply not_Forall_Exists in Hfail; [|apply _].
    apply Exists_exists in Hfail as (name & Hin & Hfail).
    apply not_true_is_false in Hfail.
    rewrite (LoadPlugins_one_fails _ _ _ _ _ _ Hin Hfail Ho1).
    by rewrite (LoadPlugins_one_fails _ _ _ _ _ _ Hin Hfail Ho2).
Qed.

Lemma candidates_two_lanes p dir n1 n2 :
  candidates dir = [n1; n2] → 2 ≤ p → lanes_of p dir = [[n1]; [n2]].
Proof.
  intros Hcand Hp. unfold lanes_of, pluginGroups.
  assert (length (sizeMap_of dir) = 2) as Hlen.
  { unfold candidates in Hcand. by rewrite <- (length_fmap snd), Hcand. }
  unfold candidates in Hcand. rewrite Hcand, Hlen.
  assert (threadsToUse p 2 = 2) as -> by (unfold threadsToUse; lia).
  reflexivity.
Qed.

(** X2.  Two files whose names differ in case only end up in two lanes, and
    the one whose thread gets to [addPlugin] first is the one that is
    registered: both registries can come out of the same call. *)
Theorem LoadPlugins_race headersOnly p dir g n1 n2 v1 v2 :
  candidates dir = [n1; n2] → 2 ≤ p →
  Plugin_ctor n1 headersOnly = inr v1 → Plugin_ctor n2 headersOnly = inr v2 →
  to_lower (Name v1) = to_lower (Name v2) →
  plugins g !! to_lower (Name v1) = None →
  LoadPlugins headersOnly p dir g
    (Completed (set_plugins g (<[to_lower (Name v1) := v1]> (plugins g)) (negb headersOnly))) ∧
  LoadPlugins headersOnly p dir g
    (Completed (set_plugins g (<[to_lower (Name v1) := v2]> (plugins g)) (negb headersOnly))) ∧
  (v1 ≠ v2 →
   <[to_lower (Name v1) := v1]> (plugins g) ≠ <[to_lower (Name v1) := v2]> (plugins g)).
Proof.
  intros Hcand Hp Hc1 Hc2 Hkey Hfree.
  pose proof (candidates_two_lanes p dir n1 n2 Hcand Hp) as Hlanes.
  assert (meanFileSize_of dir ≠ None) as Hmean.
  { rewrite meanFileSize_of_None. intros Hnil. unfold candidates in Hcand.
    by rewrite Hnil in Hcand. }
  split; [|split].
  - exists [n1; n2]. split.
    + rewrite Hlanes. apply (Interleave_turn _ 0 n1 []); [done|].
      apply (Interleave_turn _ 1 n2 []); [done|]. constructor. by repeat constructor.
    + unfold LoadPlugins_sched. destruct (meanFileSize_of dir); [|done].
      simpl. rewrite Hc1, Hc2.
      rewrite (addPlugin_absent v1) by done.
      rewrite (addPlugin_present v2); [done|].
      rewrite <- Hkey, lookup_insert_eq. by eexists.
  - exists [n2; n1]. split.
    + rewrite Hlanes. apply (Interleave_turn _ 1 n2 []); [done|].
      apply (Interleave_turn _ 0 n1 []); [done|]. constructor. by repeat constructor.
    + unfold LoadPlugins_sched. destruct (meanFileSize_of dir); [|done].
      simpl. rewrite Hc2, Hc1.
      rewrite (addPlugin_absent v2) by (by rewrite <- Hkey).
      rewrite (addPlugin_present v1); [by rewrite Hkey|].
      rewrite Hkey, lookup_insert_eq. by eexists.
  - intros Hne Heq.
    assert (<[to_lower (Name v1) := v1]> (plugins g) !! to_lower (Name v1) =
            <[to_lower (Name v1) := v2]> (plugins g) !! to_lower (Name v1)) as Hl
      by (by rewrite Heq).
    rewrite !lookup_insert_eq in Hl. congruence.
Qed.

(** *** A load over a registry that has the candidates already *)

Lemma run_trace_present headersOnly tr reg :
  (∀ name, name ∈ tr →
     ∃ v, Plugin_ctor name headersOnly = inr v ∧ is_Some (reg !! to_lower (Name v))) →
  run_trace headersOnly tr reg = Some reg.
Proof.
  induction tr as [|name tr IH]; intros Hall; simpl; [done|].
  destruct (Hall name ltac:(left)) as (v & -> & Hv).
  rewrite addPlugin_present by done.
  apply IH. intros name' Hin. apply Hall. by right.
Qed.

Lemma LoadPlugins_present headersOnly p dir g o :
  candidates dir ≠ [] →
  (∀ name, name ∈ candidates dir →
     ∃ v, Plugin_ctor name headersOnly = inr v ∧
          is_Some (plugins g !! to_lower (Name v))) →
  LoadPlugins headersOnly p dir g o →
  o = Completed (set_plugins g (plugins g) (negb headersOnly)).
Proof.
  intros Hsome Hall Ho.
  destruct (LoadPlugins_inv _ _ _ _ _ Hsome Ho) as (tr & Htr & ->).
  rewrite run_trace_present; [done|].
  intros name Hin. apply Hall. by apply Htr.
Qed.

(** X3.  A second load of the same directory, in either mode, leaves the
    registry of the first load as it is and only sets the flag: after a load
    of the headers only and a full load, [ArePluginsFullyLoaded] answers
    true while every record is the one of the first load, and
    [IsPluginActive] answers as before. *)
Theorem LoadPlugins_again_keeps_records first second p p' dir g g1 o :
  candidates dir ≠ [] →
  Forall (λ name, parses second name = true) (candidates dir) →
  (∀ name v v', Plugin_ctor name first = inr v → Plugin_ctor name second = inr v' →
                to_lower (Name v') = to_lower (Name v)) →
  LoadPlugins first p dir g (Completed g1) →
  LoadPlugins second p' dir g1 o →
  ∃ g2, o = Completed g2 ∧
        plugins g2 = plugins g1 ∧
        ArePluginsFullyLoaded g2 = negb second ∧
        ∀ pluginName, IsPluginActive g2 pluginName = IsPluginActive g1 pluginName.
Proof.
  intros Hsome Hall Hkeys Hfirst Hsecond.
  destruct (LoadPlugins_inv _ _ _ _ _ Hsome Hfirst) as (tr & Htr & Hg1).
  destruct (run_trace first tr (plugins g)) as [reg|] eqn:Hrun; [|done].
  inversion Hg1; subst g1. clear Hg1.
  assert (o = Completed (set_plugins (set_plugins g reg (negb first)) reg (negb second)))
    as ->.
  { apply (LoadPlugins_present second p' dir (set_plugins g reg (negb first)) o Hsome);
      [|done].
    intros name Hin. simpl.
    rewrite Forall_forall in Hall.
    destruct (parses_inr second name (Hall name Hin)) as [v' Hv'].
    exists v'. split; [done|].
    destruct (run_trace_parses first tr (plugins g) reg name Hrun ltac:(by apply Htr))
      as [v Hv].
    rewrite (Hkeys name v v' Hv Hv').
    eapply run_trace_registered; [done| |done]. by apply Htr. }
  eexists. split; [done|]. split; [done|]. split; [done|]. done.
Qed.

(** *** The load of the lanes *)

Lemma pluginGroups_lane_length L sizeMap j :
  0 < L → j < L →
  ∃ lane, pluginGroups L sizeMap !! j = Some lane ∧
          length lane = length sizeMap / L + (if j <? length sizeMap mod L then 1 else 0).
Proof.
  intros HL Hj. unfold pluginGroups.
  destruct (assign_fold L (sizeMap.*2) HL) as (_ & _ & _ & Hlens & _).
  rewrite length_fmap in Hlens. by apply Hlens.
Qed.

(** X4.  The lanes share the candidates evenly by number: a lane is never longer
    than a lane before it and never shorter by more than one plugin; with a
    plugin in the directory no thread is started on an empty lane; every
    candidate is in a lane. *)
Theorem lanes_balanced p dir :
  (∀ i j lane_i lane_j,
     lanes_of p dir !! i = Some lane_i → lanes_of p dir !! j = Some lane_j → i ≤ j →
     length lane_j ≤ length lane_i ∧ length lane_i ≤ S (length lane_j)) ∧
  (candidates dir ≠ [] → Forall (λ lane, lane ≠ []) (lanes_of p dir)) ∧
  length (concat (lanes_of p dir)) = length (candidates dir).
Proof.
  set (n := length (sizeMap_of dir)).
  set (L := threadsToUse p n).
  assert (0 < L) as HL by apply threadsToUse_pos.
  assert (length (lanes_of p dir) = L) as Hlen.
  { unfold lanes_of. by apply pluginGroups_length. }
  split; [|split].
  - intros i j lane_i lane_j Hi Hj Hij.
    pose proof (lookup_lt_Some _ _ _ Hi) as Hi'.
    pose proof (lookup_lt_Some _ _ _ Hj) as Hj'.
    rewrite Hlen in Hi', Hj'.
    destruct (pluginGroups_lane_length L (sizeMap_of dir) i HL Hi') as (li & Hli & Hleni).
    destruct (pluginGroups_lane_length L (sizeMap_of dir) j HL Hj') as (lj & Hlj & Hlenj).
    unfold lanes_of in Hi, Hj. fold n L in Hi, Hj.
    rewrite Hi in Hli. rewrite Hj in Hlj. inversion Hli; subst li. inversion Hlj; subst lj.
    rewrite Hleni, Hlenj. fold n.
    destruct (Nat.ltb_spec i (n mod L)), (Nat.ltb_spec j (n mod L)); lia.
  - intros Hsome. apply Forall_forall. intros lane Hlane.
    apply list_elem_of_lookup in Hlane as [j Hj].
    pose proof (lookup_lt_Some _ _ _ Hj) as Hj'. rewrite Hlen in Hj'.
    destruct (pluginGroups_lane_length L (sizeMap_of dir) j HL Hj') as (lj & Hlj & Hlenj).
    unfold lanes_of in Hj. fold n L in Hj.
    rewrite Hj in Hlj. inversion Hlj; subst lj.
    assert (n ≠ 0) as Hn.
    { unfold n, candidates in *. destruct (sizeMap_of dir); [done|simpl; lia]. }
    assert (L ≤ n) as HLn by (unfold L, threadsToUse; lia).
    assert (1 ≤ n / L) as Hq by (apply Nat.div_le_lower_bound; lia).
    fold n in Hlenj. intros ->. simpl in Hlenj. lia.
  - by rewrite lanes_of_perm.
Qed.

(** *** Plugins of the same size *)

Lemma filter_size_none (m : list (Z * string)) size :
  Forall (λ x, x.1 ≠ size) m → filter (λ x, x.1 = size) m = [].
Proof.
  induction 1 as [|x m Hx _ IH]; [done|].
  by rewrite filter_cons_False.
Qed.

Lemma multimap_emplace_filter k v m size :
  StronglySorted size_le m →
  filter (λ x, x.1 = size) (multimap_emplace k v m) =
    filter (λ x, x.1 = size) m ++ (if decide (k = size) then [(k, v)] else []).
Proof.
  induction m as [|[k' v'] m IH]; intros Hsorted.
  - simpl. rewrite filter_cons, filter_nil. simpl.
    by destruct (decide (k = size)).
  - apply StronglySorted_inv in Hsorted as [Hm Hall].
    cbn [multimap_emplace].
    destruct (Z.ltb_spec k k') as [Hlt|Hge].
    + destruct (decide (k = size)) as [->|Hne].
      * rewrite filter_cons_True by done.
        assert (filter (λ x : Z * string, x.1 = size) ((k', v') :: m) = []) as ->.
        { apply filter_size_none, Forall_cons. split; [simpl; lia|].
          eapply Forall_impl; [exact Hall|].
          intros [k2 v2]. unfold size_le. simpl. lia. }
        done.
      * rewrite filter_cons_False by done. by rewrite app_nil_r.
    + rewrite !(filter_cons _ (k', v')). rewrite IH by done.
      by destruct (decide ((k', v').1 = size)).
Qed.

Lemma scan_fold_filter dir sizeMap total size :
  StronglySorted size_le sizeMap →
  filter (λ x, x.1 = size) (fold_left scan_step dir (sizeMap, total)).1 =
    filter (λ x, x.1 = size) sizeMap ++ filter (λ x, x.1 = size) (scanned dir).
Proof.
  revert sizeMap total. induction dir as [|e dir IH]; intros sizeMap total Hsorted.
  - simpl. by rewrite app_nil_r.
  - unfold scanned. cbn [fold_left List.filter]. rewrite scan_step_eq.
    destruct (is_candidate e).
    + rewrite IH by (by apply multimap_emplace_sorted).
      rewrite multimap_emplace_filter by done.
      rewrite fmap_cons, filter_cons. cbn [fst].
      rewrite <- app_assoc. by destruct (decide (d_size e = size)).
    + by apply IH.
Qed.

(** X5.  The size multimap is the stable sort of the directory listing by file
    size: it is ascending, and the plugins of one size are in it in the
    order in which the directory listed them. *)
Theorem sizeMap_stable dir size :
  StronglySorted size_le (sizeMap_of dir) ∧
  filter (λ x, x.1 = size) (sizeMap_of dir) = filter (λ x, x.1 = size) (scanned dir).
Proof.
  split; [apply sizeMap_sorted|].
  unfold sizeMap_of, scan. rewrite scan_fold_filter by constructor. done.
Qed.

(** *** Ghosted plugins *)

Lemma string_length_app (a b : string) :
  String.length (a +:+ b) = String.length a + String.length b.
Proof. induction a as [|c a IH]; simpl; [done|]. by rewrite IH. Qed.

Lemma string_map_length f (s : string) :
  String.length (string_map f s) = String.length s.
Proof. induction s as [|c s IH]; simpl; [done|]. by rewrite IH. Qed.

Lemma substring_all (s : string) : substring 0 (String.length s) s = s.
Proof. induction s as [|c s IH]; simpl; [done|]. by rewrite IH. Qed.

Lemma substring_app_r (a b : string) :
  substring (String.length a) (String.length b) (a +:+ b) = b.
Proof. induction a as [|c a IH]; simpl; [apply substring_all|done]. Qed.

Lemma substring_app_l (a b : string) :
  substring 0 (String.length a) (a +:+ b) = a.
Proof.
  induction a as [|c a IH]; simpl; [by destruct b|]. by rewrite IH.
Qed.

(** Cutting the [.ghost] suffix, in whatever case it is written, gives back
    the name it was put on. *)
Lemma trim_ghost_ghosted (name suffix : string) :
  string_map ascii_toupper suffix = ".GHOST" →
  trim_ghost (name +:+ suffix) = name.
Proof.
  intros Hsuffix.
  assert (String.length suffix = 6) as Hlen.
  { by rewrite <- (string_map_length ascii_toupper), Hsuffix. }
  unfold trim_ghost, iends_with.
  rewrite string_length_app, Hlen.
  change (String.length ".ghost") with 6.
  replace (String.length name + 6 - 6) with (String.length name) by lia.
  replace (substring (String.length name) 6 (name +:+ suffix)) with suffix
    by (rewrite <- Hlen; symmetry; apply substring_app_r).
  rewrite Hsuffix.
  replace (6 <=? String.length name + 6) with true by (symmetry; apply Nat.leb_le; lia).
  cbn [andb]. change (string_map ascii_toupper ".ghost") with ".GHOST".
  rewrite String.eqb_refl. apply substring_app_l.
Qed.

Lemma candidates_elem dir name :
  name ∈ candidates dir ↔
  ∃ e, e ∈ dir ∧ is_candidate e = true ∧ trim_ghost (d_name e) = name.
Proof.
  unfold candidates. rewrite sizeMap_perm, <- list_fmap_compose, list_elem_of_fmap.
  split.
  - intros (e & -> & He). apply list_elem_of_In, filter_In in He as [He Hc].
    exists e. split; [by apply list_elem_of_In|done].
  - intros (e & He & Hc & <-). exists e. split; [done|].
    apply list_elem_of_In, filter_In. split; [by apply list_elem_of_In|done].
Qed.

(** X6.  A ghosted plugin file is loaded by the name without the suffix: the
    name that goes to the [Plugin] constructor is the one that the file had
    before [.ghost], in any case, was put on it. *)
Theorem ghosted_plugin_keeps_name dir e name suffix :
  e ∈ dir → is_candidate e = true →
  d_name e = name +:+ suffix → string_map ascii_toupper suffix = ".GHOST" →
  trim_ghost (d_name e) = name ∧ name ∈ candidates dir.
Proof.
  intros He Hc Hname Hsuffix.
  assert (trim_ghost (d_name e) = name) as Htrim.
  { rewrite Hname. by apply trim_ghost_ghosted. }
  split; [done|]. apply candidates_elem. by exists e.
Qed.

(** ** [RedatePlugins] *)

Lemma file_of_Some files pluginName filepath thisTime :
  file_of files pluginName = Some (filepath, thisTime) →
  files !! filepath = Some thisTime.
Proof.
  unfold file_of. intros Hfile.
  destruct (files !! pluginName) as [t|] eqn:Hplain.
  - by inversion Hfile; subst.
  - destruct (files !! (pluginName +:+ ".ghost")) as [t|] eqn:Hghost; [|done].
    by inversion Hfile; subst.
Qed.

Lemma file_of_same_files a b pluginName :
  same_files a b →
  match file_of a pluginName, file_of b pluginName with
  | Some (pa, _), Some (pb, _) => pa = pb
  | None, None => True
  | _, _ => False
  end.
Proof.
  intros Hsame. unfold file_of.
  pose proof (Hsame pluginName) as Hplain.
  pose proof (Hsame (pluginName +:+ ".ghost")) as Hghost.
  destruct (a !! pluginName) as [ta|], (b !! pluginName) as [tb|].
  - done.
  - destruct Hplain as [Hplain _]. by destruct (Hplain ltac:(by eexists)).
  - destruct Hplain as [_ Hplain]. by destruct (Hplain ltac:(by eexists)).
  - destruct (a !! (pluginName +:+ ".ghost")), (b !! (pluginName +:+ ".ghost")).
    + done.
    + destruct Hghost as [Hghost _]. by destruct (Hghost ltac:(by eexists)).
    + destruct Hghost as [_ Hghost]. by destruct (Hghost ltac:(by eexists)).
    + done.
Qed.

Lemma files_of_same_files a b loadorder :
  same_files a b → (files_of a loadorder).*1 = (files_of b loadorder).*1.
Proof.
  intros Hsame. unfold files_of.
  induction loadorder as [|n loadorder IH]; [done|].
  cbn [omap list_omap].
  pose proof (file_of_same_files a b n Hsame) as Hn.
  destruct (file_of a n) as [[pa ta]|], (file_of b n) as [[pb tb]|]; try done.
  csimpl. by rewrite Hn, IH.
Qed.

Lemma same_files_refl a : same_files a a.
Proof. by intros file. Qed.

Lemma same_files_trans a b c : same_files a b → same_files b c → same_files a c.
Proof. intros Hab Hbc file. by rewrite (Hab file). Qed.

Lemma same_files_insert files filepath t t' :
  files !! filepath = Some t → same_files files (<[filepath := t']> files).
Proof.
  intros Hfile file. destruct (decide (filepath = file)) as [<-|Hne].
  - rewrite lookup_insert_eq, Hfile. split; by eexists.
  - by rewrite lookup_insert_ne.
Qed.

Lemma redate_step_inv files lastTime pluginName files' lastTime' :
  redate_step files lastTime pluginName = Some (files', lastTime') →
  (file_of files pluginName = None ∧ files' = files ∧ lastTime' = lastTime) ∨
  (∃ filepath thisTime,
     file_of files pluginName = Some (filepath, thisTime) ∧
     (lastTime ≤ thisTime)%Z ∧ files' = files ∧ lastTime' = thisTime) ∨
  (∃ filepath thisTime,
     file_of files pluginName = Some (filepath, thisTime) ∧
     (thisTime < lastTime)%Z ∧ (lastTime + 60 ≤ time_t_max)%Z ∧
     files' = <[filepath := (lastTime + 60)%Z]> files ∧
     lastTime' = (lastTime + 60)%Z).
Proof.
  unfold redate_step. intros Hstep.
  destruct (file_of files pluginName) as [[filepath thisTime]|].
  - destruct (Z.leb_spec lastTime thisTime).
    + injection Hstep as <- <-. right. left. by exists filepath, thisTime.
    + destruct (Z.ltb_spec time_t_max (lastTime + 60)); [done|].
      injection Hstep as <- <-. right. right. by exists filepath, thisTime.
  - injection Hstep as <- <-. by left.
Qed.

(** One turn: the same files exist, the time of the file of the plugin is
    [lastTime'] afterwards, no other file is touched and no time goes back. *)
Lemma redate_step_frame files lastTime pluginName files' lastTime' :
  redate_step files lastTime pluginName = Some (files', lastTime') →
  same_files files files' ∧
  (lastTime ≤ lastTime')%Z ∧
  (∀ filepath thisTime, file_of files pluginName = Some (filepath, thisTime) →
     files' !! filepath = Some lastTime') ∧
  (∀ file, (∀ thisTime, file_of files pluginName ≠ Some (file, thisTime)) →
     files' !! file = files !! file) ∧
  (∀ file t, files !! file = Some t → ∃ t', files' !! file = Some t' ∧ (t ≤ t')%Z).
Proof.
  intros Hstep.
  destruct (redate_step_inv _ _ _ _ _ Hstep)
    as [(Hnone & -> & ->)|[(filepath & thisTime & Hfile & Hle & -> & ->)
                          |(filepath & thisTime & Hfile & Hlt & Hmax & -> & ->)]].
  - split; [apply same_files_refl|]. split; [lia|]. split; [by rewrite Hnone|].
    split; [done|]. intros file t Ht. exists t. split; [done|lia].
  - split; [apply same_files_refl|]. split; [done|]. split.
    { intros filepath' thisTime' Heq. rewrite Hfile in Heq. injection Heq as <- <-.
      by apply file_of_Some in Hfile. }
    split; [done|]. intros file t Ht. exists t. split; [done|lia].
  - pose proof (file_of_Some _ _ _ _ Hfile) as Hthis.
    split; [by eapply same_files_insert|]. split; [lia|]. split.
    { intros filepath' thisTime' Heq. rewrite Hfile in Heq. injection Heq as <- <-.
      apply lookup_insert_eq. }
    split.
    + intros file Hother. rewrite lookup_insert_ne; [done|].
      intros <-. by apply (Hother thisTime).
    + intros file t Ht. destruct (decide (filepath = file)) as [<-|Hne].
      * rewrite lookup_insert_eq. eexists. split; [done|].
        assert (t = thisTime) as -> by congruence. lia.
      * rewrite lookup_insert_ne by done. exists t. split; [done|lia].
Qed.

Lemma files_of_cons files pluginName loadorder :
  files_of files (pluginName :: loadorder) =
    match file_of files pluginName with
    | Some file => file :: files_of files loadorder
    | None => files_of files loadorder
    end.
Proof. unfold files_of. cbn [omap list_omap]. by destruct (file_of files pluginName). Qed.

Lemma redate_loop_frame loadorder files lastTime files' :
  redate_loop loadorder files lastTime = Some files' →
  same_files files files' ∧
  (∀ file, file ∉ (files_of files loadorder).*1 → files' !! file = files !! file) ∧
  (∀ file t, files !! file = Some t → ∃ t', files' !! file = Some t' ∧ (t ≤ t')%Z).
Proof.
  revert files lastTime.
  induction loadorder as [|n loadorder IH]; intros files lastTime Hloop.
  - inversion Hloop; subst. split; [apply same_files_refl|]. split; [done|].
    intros file t Ht. exists t. split; [done|lia].
  - cbn [redate_loop] in Hloop.
    destruct (redate_step files lastTime n) as [[files1 last1]|] eqn:Hstep; [|done].
    destruct (redate_step_frame _ _ _ _ _ Hstep) as (Hsame1 & _ & _ & Hframe1 & Hup1).
    destruct (IH _ _ Hloop) as (Hsame & Hframe & Hup).
    split; [by eapply same_files_trans|]. split.
    + intros file Hfile. rewrite files_of_cons in Hfile.
      rewrite Hframe, Hframe1; [done| |].
      * intros thisTime Hn. rewrite Hn in Hfile. apply Hfile. by left.
      * rewrite <- (files_of_same_files files files1) by done.
        destruct (file_of files n); [|done]. intros Hin. apply Hfile. by right.
    + intros file t Ht. destruct (Hup1 file t Ht) as (t1 & Ht1 & Hle1).
      destruct (Hup file t1 Ht1) as (t' & Ht' & Hle').
      exists t'. split; [done|lia].
Qed.

Lemma redate_loop_sorted loadorder files lastTime files' :
  redate_loop loadorder files lastTime = Some files' →
  NoDup (files_of files loadorder).*1 →
  StronglySorted Z.le (lastTime :: (files_of files' loadorder).*2).
Proof.
  revert files lastTime.
  induction loadorder as [|n loadorder IH]; intros files lastTime Hloop Hnodup.
  - repeat constructor.
  - pose proof (redate_loop_frame _ _ _ _ Hloop) as (Hsame & _ & _).
    cbn [redate_loop] in Hloop.
    destruct (redate_step files lastTime n) as [[files1 last1]|] eqn:Hstep; [|done].
    destruct (redate_step_frame _ _ _ _ _ Hstep) as (Hsame1 & Hle1 & Hnew1 & _ & _).
    destruct (redate_loop_frame _ _ _ _ Hloop) as (_ & Hframe & _).
    rewrite files_of_cons in Hnodup. rewrite files_of_cons.
    pose proof (file_of_same_files files files' n Hsame) as Hn.
    destruct (file_of files n) as [[filepath thisTime]|] eqn:Hfile;
      destruct (file_of files' n) as [[filepath' thisTime']|] eqn:Hfile'; try done.
    + subst filepath'. csimpl in Hnodup. apply NoDup_cons in Hnodup as [Hfresh Hnodup].
      rewrite (files_of_same_files files files1) in Hfresh, Hnodup by done.
      assert (thisTime' = last1) as ->.
      { apply file_of_Some in Hfile'. rewrite Hframe in Hfile' by done.
        rewrite (Hnew1 filepath thisTime eq_refl) in Hfile'. congruence. }
      specialize (IH _ _ Hloop Hnodup). csimpl.
      constructor; [done|].
      apply StronglySorted_inv in IH as [_ Hall].
      constructor; [done|].
      eapply Forall_impl; [exact Hall|]. intros t. simpl. lia.
    + destruct (redate_step_inv _ _ _ _ _ Hstep)
        as [(_ & -> & ->)|[(? & ? & ? & _)|(? & ? & ? & _)]]; [|congruence..].
      by apply (IH files).
Qed.

Lemma redate_loop_in_order loadorder files lastTime :
  StronglySorted Z.le (lastTime :: (files_of files loadorder).*2) →
  redate_loop loadorder files lastTime = Some files.
Proof.
  revert lastTime. induction loadorder as [|n loadorder IH]; intros lastTime Hsorted.
  - done.
  - rewrite files_of_cons in Hsorted. cbn [redate_loop]. unfold redate_step.
    destruct (file_of files n) as [[filepath thisTime]|]; [|by apply IH].
    csimpl in Hsorted. apply StronglySorted_inv in Hsorted as [Hrest Hall].
    apply Forall_cons in Hall as [Hle _].
    destruct (Z.leb_spec lastTime thisTime); [|lia]. by apply IH.
Qed.

Lemma redate_loop_total loadorder files lastTime bound :
  (∀ file t, files !! file = Some t → (t ≤ bound)%Z) →
  (lastTime ≤ bound)%Z →
  (bound + 60 * Z.of_nat (length loadorder) ≤ time_t_max)%Z →
  is_Some (redate_loop loadorder files lastTime).
Proof.
  revert files lastTime bound.
  induction loadorder as [|n loadorder IH]; intros files lastTime bound Hfiles Hlast Hmax.
  - by eexists.
  - cbn [redate_loop]. unfold redate_step. cbn [length] in Hmax.
    destruct (file_of files n) as [[filepath thisTime]|] eqn:Hfile.
    + apply file_of_Some in Hfile.
      destruct (Z.leb_spec lastTime thisTime).
      * apply (IH _ _ bound); [done|by eapply Hfiles|lia].
      * destruct (Z.ltb_spec time_t_max (lastTime + 60)); [lia|].
        apply (IH _ _ (bound + 60)%Z); [|lia|lia].
        intros file t. destruct (decide (filepath = file)) as [<-|Hne].
        -- rewrite lookup_insert_eq. intros [= <-]. lia.
        -- rewrite lookup_insert_ne by done. intros Ht.
           pose proof (Hfiles file t Ht). lia.
    + apply (IH _ _ bound); [done..|lia].
Qed.

(** X7.  [RedatePlugins] creates and removes no file, touches no file but the
    files of the plugins of the load order and never sets a time back; for
    a game that is not Skyrim it changes nothing. *)
Theorem RedatePlugins_frame Id g files files' :
  RedatePlugins Id g files = Some files' →
  same_files files files' ∧
  (∀ file, file ∉ (files_of files (loadOrder g)).*1 → files' !! file = files !! file) ∧
  (∀ file t, files !! file = Some t → ∃ t', files' !! file = Some t' ∧ (t ≤ t')%Z) ∧
  (Id ≠ tes5 → files' = files).
Proof.
  unfold RedatePlugins. case_bool_decide as Hid; intros Hre.
  - destruct (redate_loop_frame _ _ _ _ Hre) as (Hsame & Hframe & Hup).
    split; [done|]. split; [done|]. split; [done|]. by intros Hne.
  - inversion Hre; subst. split; [apply same_files_refl|]. split; [done|].
    split; [|done]. intros file t Ht. exists t. split; [done|lia].
Qed.

(** X8.  For Skyrim, with every plugin of the load order in a file of its own
    and the times far enough from the end of [time_t]: [RedatePlugins]
    returns, and afterwards the times of the files of the plugins, gone
    through in load order, never go down and none is negative. *)
Theorem RedatePlugins_orders_times g files bound :
  NoDup (files_of files (loadOrder g)).*1 →
  (∀ file t, files !! file = Some t → (t ≤ bound)%Z) →
  (0 ≤ bound)%Z →
  (bound + 60 * Z.of_nat (length (loadOrder g)) ≤ time_t_max)%Z →
  ∃ files', RedatePlugins tes5 g files = Some files' ∧
            (files_of files' (loadOrder g)).*1 = (files_of files (loadOrder g)).*1 ∧
            StronglySorted Z.le (0%Z :: (files_of files' (loadOrder g)).*2).
Proof.
  intros Hnodup Hfiles Hbound Hmax.
  unfold RedatePlugins. rewrite bool_decide_eq_true_2 by done.
  destruct (redate_loop_total (loadOrder g) files 0 bound Hfiles Hbound Hmax)
    as [files' Hloop].
  exists files'. split; [done|]. split.
  - symmetry. apply files_of_same_files. by eapply redate_loop_frame.
  - by eapply redate_loop_sorted.
Qed.

(** X9.  Files whose times are in the order of the load order already are left
    alone. *)
Theorem RedatePlugins_in_order_untouched Id g files :
  StronglySorted Z.le (0%Z :: (files_of files (loadOrder g)).*2) →
  RedatePlugins Id g files = Some files.
Proof.
  intros Hsorted. unfold RedatePlugins. case_bool_decide; [|done].
  by apply redate_loop_in_order.
Qed.

(** X10.  With every plugin of the load order in a file of its own, redating a
    second time changes nothing. *)
Theorem RedatePlugins_idempotent Id g files files' :
  NoDup (files_of files (loadOrder g)).*1 →
  RedatePlugins Id g files = Some files' →
  RedatePlugins Id g files' = Some files'.
Proof.
  intros Hnodup Hre. unfold RedatePlugins in *. case_bool_decide; [|done].
  apply redate_loop_in_order. by eapply redate_loop_sorted.
Qed.

(** ** The checks of the tests *)

Lemma std_equal_None {A B} (eq : A → B → bool) range1 range2 :
  std_equal eq range1 range2 = None ↔ length range2 < length range1.
Proof.
  revert range2. induction range1 as [|x range1 IH]; intros range2.
  - simpl. split; [done|lia].
  - destruct range2 as [|y range2]; simpl.
    + split; [lia|done].
    + rewrite <- Nat.succ_lt_mono, <- IH.
      destruct (std_equal eq range1 range2); split; done.
Qed.

Lemma std_equal_true {A B} (eq : A → B → bool) range1 range2 :
  std_equal eq range1 range2 = Some true ↔
  length range1 ≤ length range2 ∧
  Forall2 (λ x y, eq x y = true) range1 (take (length range1) range2).
Proof.
  revert range2. induction range1 as [|x range1 IH]; intros range2.
  - simpl. split; [|done]. intros _. split; [lia|constructor].
  - destruct range2 as [|y range2]; simpl.
    + split; [done|]. intros [Hlen _]. lia.
    + rewrite <- Nat.succ_le_mono. split.
      * destruct (std_equal eq range1 range2) as [rest|] eqn:Hrest; [|done].
        intros [= Hand]. apply andb_prop in Hand as [Hxy ->].
        apply IH in Hrest as [Hlen Hall]. split; [done|]. by constructor.
      * intros [Hlen Hall]. apply Forall2_cons_1 in Hall as [Hxy Hall].
        rewrite (proj2 (IH range2) (conj Hlen Hall)). by rewrite Hxy.
Qed.

(** X11.  The expectation of the tests [Sort] and [Sort_HeadersOnly] is met by
    every result that agrees with a front part of the expected order, the
    empty result among them: the plugins that a sort leaves out are not
    noticed.  A result of more than eleven plugins makes [std::equal] read
    past the end of the expected list.  The [EXPECT_EQ] of line 201 takes
    nothing but the whole list of names. *)
Theorem expect_std_equal_accepts_front_part sorted :
  (expect_std_equal sorted = Some true ↔
   length sorted ≤ 11 ∧
   Forall2 (λ plugin name, Plugin_eq_string plugin name = true) sorted
           (take (length sorted) GetExpectedSortedOrder)) ∧
  (expect_std_equal sorted = None ↔ 11 < length sorted) ∧
  (sorted = [] → expect_std_equal sorted = Some true) ∧
  (expect_eq GetExpectedSortedOrder sorted = true ↔
   Name <$> sorted = GetExpectedSortedOrder).
Proof.
  unfold expect_std_equal. split; [apply std_equal_true|].
  split; [apply std_equal_None|]. split; [by intros ->|].
  unfold expect_eq, GetActualSortedOrder. rewrite bool_decide_eq_true.
  split; by intros ->.
Qed.

End Loot.

(** ** The claims at concrete inputs *)

(** The fixture sorts into the order that the test [Sort] expects, and a
    message that was there before is gone afterwards. *)
Lemma skyrim_sorts :
  Sort fold_ascii (skyrim_game ∅ ["1"]) [] =
    Some (Sorted skyrim_plugins, skyrim_game ∅ [], []).
Proof. vm_compute. reflexivity. Qed.

(** The user metadata of the test [Sort_WithLoadAfter] gives the order
    that the test expects. *)
Lemma skyrim_sorts_with_loadAfter :
  (λ r, match r.1.1 with
        | Sorted order => Name <$> order
        | CyclicDependencyError _ => []
        end) <$>
  Sort fold_ascii
    (skyrim_game {[ "blank.esp" :=
                    loads_after ["blank - different.esp";
                                 "blank - different plugin dependent.esp"] ]} []) [] =
  Some [ "Skyrim.esm"; "Blank.esm"; "Blank - Different.esm";
         "Blank - Master Dependent.esm"; "Blank - Different Master Dependent.esm";
         "Blank - Different.esp"; "Blank - Master Dependent.esp";
         "Blank - Different Master Dependent.esp";
         "Blank - Different Plugin Dependent.esp"; "Blank.esp";
         "Blank - Plugin Dependent.esp" ].
Proof. vm_compute. reflexivity. Qed.

(** The metadata of the test [Sort_WithPriority], a global priority of
    -100000 on an esp: under the rules of the specification the priority
    edges from that esp to the masters close a cycle with the edges from the
    masters, where the test expects an order. *)
Lemma skyrim_global_priority_cycle :
  (λ r, r.1.1) <$>
  Sort fold_ascii
    (skyrim_game {[ "blank - different master dependent.esp" :=
                    with_priority (-100000) true ]} []) [] =
  Some (CyclicDependencyError
          [ "skyrim.esm"; "blank - different.esm";
            "blank - different master dependent.esp"; "skyrim.esm" ]).
Proof. vm_compute. reflexivity. Qed.

(** C2 on the metadata of the tests [Sort_HasCycle] and
    [failedSortShouldNotClearExistingGameMessages]: [Blank.esm] is to load
    after a master that depends on it; the message [1] stays. *)
Lemma Sort_cycle_fails_witness :
  tc (λ a b, mustPrecede fold_ascii (skyrim_game cyclic_userlist ["1"]) a b = true)
     "blank.esm" "blank.esm" ∧
  ∃ cycle,
    Sort fold_ascii (skyrim_game cyclic_userlist ["1"]) [] =
      Some (CyclicDependencyError cycle, skyrim_game cyclic_userlist ["1"],
            [] ++ [describeCycle cycle]).
Proof.
  assert (tc (λ a b, mustPrecede fold_ascii (skyrim_game cyclic_userlist ["1"]) a b = true)
             "blank.esm" "blank.esm") as Hcycle.
  { apply (tc_l _ _ "blank - master dependent.esm").
    - vm_compute. reflexivity.
    - apply tc_once. vm_compute. reflexivity. }
  split; [exact Hcycle|].
  exact (Sort_cycle_fails fold_ascii (skyrim_game cyclic_userlist ["1"]) []
           "blank.esm" Hcycle).
Defined.

(** C1 on the test [Sort]: the fixture sorts into the expected order, and
    a second sort of the game as the first one left it gives the same. *)
Lemma Sort_deterministic_witness :
  Sort fold_ascii (skyrim_game ∅ ["1"]) [] =
    Some (Sorted skyrim_plugins, skyrim_game ∅ [], []) ∧
  ∃ g'' errors'',
    Sort fold_ascii (skyrim_game ∅ []) [] = Some (Sorted skyrim_plugins, g'', errors'').
Proof.
  assert (Sort fold_ascii (skyrim_game ∅ ["1"]) [] =
            Some (Sorted skyrim_plugins, skyrim_game ∅ [], [])) as Hsort.
  { vm_compute. reflexivity. }
  split; [exact Hsort|].
  destruct (Sort_deterministic fold_ascii (skyrim_game ∅ ["1"]) [])
    as (result & g' & errors' & Hfirst & Hsecond & _).
  rewrite Hsort in Hfirst. injection Hfirst as <- <- <-.
  exact Hsecond.
Defined.

(** What the tie-break rule is for: two plugins with no edge between them
    can be taken in either order by a Kahn loop; with the rule there is one
    order, the one of the load order, and [Sort] returns it. *)
Lemma tie_break_decides :
  ∃ eff,
    ResolvePriorities (BuildGraph fold_ascii tie_game).1 = Some eff ∧
    kahnRun (takeable (sortEdges fold_ascii tie_game eff) (sortMasters fold_ascii tie_game eff))
            (nodeOrder fold_ascii tie_game) ["a.esp"; "b.esp"] ∧
    kahnRun (takeable (sortEdges fold_ascii tie_game eff) (sortMasters fold_ascii tie_game eff))
            (nodeOrder fold_ascii tie_game) ["b.esp"; "a.esp"] ∧
    kahnRun (firstTakeable (sortEdges fold_ascii tie_game eff)
                           (sortMasters fold_ascii tie_game eff))
            (nodeOrder fold_ascii tie_game) ["b.esp"; "a.esp"] ∧
    ¬ kahnRun (firstTakeable (sortEdges fold_ascii tie_game eff)
                             (sortMasters fold_ascii tie_game eff))
              (nodeOrder fold_ascii tie_game) ["a.esp"; "b.esp"] ∧
    (λ r, r.1.1) <$> Sort fold_ascii tie_game [] =
      Some (Sorted [mkPlugin "B.esp" true false []; mkPlugin "A.esp" true false []]).
Proof.
  exists (<["b.esp" := 0%Z]> {[ "a.esp" := 0%Z ]}).
  split; [vm_compute; reflexivity|].
  match goal with
  | |- kahnRun (takeable ?edges ?isMaster) ?keys _ ∧ _ =>
      assert (kahnRun (firstTakeable edges isMaster) keys ["b.esp"; "a.esp"]) as Hrun;
      [|destruct (kahnRun_two_free isMaster "a.esp" "b.esp") as [Hab Hba]]
  end.
  { apply TopologicalSort_run; [apply sortEdges_closed|]. vm_compute. reflexivity. }
  { discriminate. }
  { vm_compute. reflexivity. }
  { vm_compute. reflexivity. }
  split; [exact Hab|]. split; [exact Hba|]. split; [exact Hrun|].
  split; [|vm_compute; reflexivity].
  intros Hother.
  pose proof (kahnRun_unique _ _ _ _ _ Hother Hrun) as Heq. discriminate Heq.
Qed.

(** C3 on the test [sortingShouldClearExistingGameMessages]: the fixture
    with the message [1] sorts, and the list is empty afterwards.  With a
    load-after entry that names a plugin that is not loaded, the list holds
    the diagnostic on that entry afterwards, and the message [1] is gone. *)
Lemma Sort_success_replaces_messages_witness :
  (Sort fold_ascii (skyrim_game ∅ ["1"]) [] =
     Some (Sorted skyrim_plugins, skyrim_game ∅ [], []) ∧
   messages (skyrim_game ∅ []) = []) ∧
  (Sort fold_ascii (skyrim_game dangling_userlist ["1"]) [] =
     Some (Sorted skyrim_plugins,
           skyrim_game dangling_userlist
             ["Blank.esp loads after a plugin that is not loaded: missing.esp"], []) ∧
   messages (skyrim_game dangling_userlist
               ["Blank.esp loads after a plugin that is not loaded: missing.esp"]) =
     ["Blank.esp loads after a plugin that is not loaded: missing.esp"]).
Proof.
  assert (Sort fold_ascii (skyrim_game ∅ ["1"]) [] =
            Some (Sorted skyrim_plugins, skyrim_game ∅ [], [])) as Hsort.
  { vm_compute. reflexivity. }
  assert (Sort fold_ascii (skyrim_game dangling_userlist ["1"]) [] =
            Some (Sorted skyrim_plugins,
                  skyrim_game dangling_userlist
                    ["Blank.esp loads after a plugin that is not loaded: missing.esp"],
                  [])) as Hsort'.
  { vm_compute. reflexivity. }
  split; (split; [done|]).
  - rewrite (proj1 (Sort_success_replaces_messages fold_ascii _ _ _ _ _ Hsort)).
    vm_compute. reflexivity.
  - rewrite (proj1 (Sort_success_replaces_messages fold_ascii _ _ _ _ _ Hsort')).
    vm_compute. reflexivity.
Defined.

(** C4 on the metadata of the test on inherited priorities:
    [Blank - Different.esp] loads after [Blank - Master Dependent.esp],
    which loads after [Blank.esp] of priority 2. *)
Lemma priorities_inherited_along_loadAfter_witness :
  tc (λ x y, loadsAfter (skyrim_game inheriting_userlist []) x y = true)
     "blank - different.esp" "blank.esp" ∧
  ∃ eff pa,
    ResolvePriorities (BuildGraph fold_ascii (skyrim_game inheriting_userlist [])).1 = Some eff ∧
    eff !! "blank - different.esp" = Some pa ∧ (2 ≤ pa)%Z.
Proof.
  assert (tc (λ x y, loadsAfter (skyrim_game inheriting_userlist []) x y = true)
             "blank - different.esp" "blank.esp") as Hchain.
  { apply (tc_l _ _ "blank - master dependent.esp").
    - vm_compute. reflexivity.
    - apply tc_once. vm_compute. reflexivity. }
  split; [exact Hchain|].
  exact (proj1 (priorities_inherited_along_loadAfter fold_ascii
                  (skyrim_game inheriting_userlist []))
               "blank - different.esp" "blank.esp" Hchain).
Defined.


(** C6, the claim as stated fails: after a load of a directory that holds
    [New.esp] alone, the registry still holds the entry of [Old.esp] from
    the load before, which is no record of the current candidates. *)
Lemma LoadPlugins_second_call_counterexample :
  ¬ ∀ g', LoadPlugins fold_ascii has_plugin_extension parse_by_name false 1
            new_directory loaded_game (Completed g') →
          ∀ key v, plugins g' !! key = Some v →
                   ∃ name, name ∈ candidates has_plugin_extension new_directory ∧
                           parse_by_name name false = inr v.
Proof.
  intros Hclaim.
  destruct (Hclaim (set_plugins loaded_game
                      (<["new.esp" := mkPlugin "New.esp" true false []]>
                         {[ "old.esp" := old_plugin ]}) true)
              ltac:(exists ["New.esp"]; split;
                      [apply (Interleave_turn _ 0 "New.esp" []);
                         [reflexivity|by constructor; repeat constructor]
                      |vm_compute; reflexivity])
              "old.esp" old_plugin ltac:(vm_compute; reflexivity))
    as (name & Hname & Hparse).
  assert (name = "New.esp") as ->.
  { revert Hname. vm_compute. intros Hname.
    by apply list_elem_of_singleton in Hname. }
  vm_compute in Hparse. discriminate Hparse.
Qed.

(** C6 as amended: after the load of [New.esp] the registry holds both
    [Old.esp], as it was, and [New.esp]. *)
Lemma LoadPlugins_keeps_prior_entries_witness :
  ∃ g', LoadPlugins fold_ascii has_plugin_extension parse_by_name false 1
          new_directory loaded_game (Completed g') ∧
        plugins g' !! "old.esp" = Some old_plugin ∧
        is_Some (plugins g' !! "new.esp").
Proof.
  destruct (LoadPlugins_keeps_prior_entries fold_ascii has_plugin_extension
              parse_by_name false 1 new_directory loaded_game)
    as [[g' Hload] Hevery].
  - vm_compute. discriminate.
  - vm_compute. repeat constructor.
  - destruct (Hevery _ Hload) as (g'' & Heq & _ & Hkeep & _ & Hnew).
    inversion Heq; subst g''. exists g'. split; [exact Hload|]. split.
    + apply Hkeep. reflexivity.
    + apply (Hnew "New.esp" (mkPlugin "New.esp" true false [])).
      * by_computation.
      * reflexivity.
Defined.

(** The five plugins of the example directory, loaded by two threads that
    run one after the other. *)
Lemma five_plugins_loaded :
  match LoadPlugins_seq fold_ascii has_plugin_extension parse_by_name true 2
          five_plugins loaded_game with
  | Completed g => (map_to_list (plugins g)).*1 ≡ₚ
                     ["old.esp"; "a.esp"; "b.esm"; "c.esp"; "d.esp"; "e.esp"] ∧
                   _pluginsFullyLoaded g = false
  | _ => False
  end.
Proof.
  vm_compute. split; [|reflexivity].
  apply (bool_decide_unpack _). vm_compute. exact I.
Qed.

(** C7 at an empty directory: line 157 divides by the number of plugins
    found, which is zero, before the lanes are chosen; from there on the
    call has no defined outcome. *)
Lemma LoadPlugins_empty_directory :
  LoadPlugins fold_ascii has_plugin_extension parse_by_name false 4 [] empty_game Undefined ∧
  ¬ ∃ g', LoadPlugins fold_ascii has_plugin_extension parse_by_name false 4 []
            empty_game (Completed g').
Proof.
  split.
  - by apply LoadPlugins_no_candidates.
  - intros [g' Hload]. apply LoadPlugins_no_candidates in Hload; [|done].
    discriminate Hload.
Qed.

(** C8 on five plugins and two threads: the fourth smallest file goes to
    lane 1, as its second entry. *)
Lemma LoadPlugins_round_robin_witness :
  candidates has_plugin_extension five_plugins !! 3 = Some "D.esp" ∧
  lanes_of has_plugin_extension 2 five_plugins = [["A.esp"; "C.esp"; "E.esp"]; ["B.esm"; "D.esp"]] ∧
  ∃ lane, lanes_of has_plugin_extension 2 five_plugins !! (3 mod 2) = Some lane ∧
          lane !! (3 / 2) = Some "D.esp".
Proof.
  split; [reflexivity|]. split; [reflexivity|].
  exact (proj1 (proj2 (proj2 (LoadPlugins_round_robin has_plugin_extension 2
                                five_plugins 3 "D.esp" eq_refl)))).
Defined.

(** C9: a loaded plugin is answered from the registry, whatever the case
    of the name; a name that is not loaded is answered by the load order
    handler. *)
Lemma IsPluginActive_registry_first_witness :
  IsPluginActive fold_ascii none_active loaded_game "OLD.ESP" = true ∧
  IsPluginActive fold_ascii none_active loaded_game "New.esp" = none_active "New.esp".
Proof.
  destruct (IsPluginActive_registry_first fold_ascii none_active loaded_game "OLD.ESP")
    as [Hfound _].
  destruct (IsPluginActive_registry_first fold_ascii none_active loaded_game "New.esp")
    as [_ Habsent].
  split.
  - exact (Hfound old_plugin eq_refl).
  - exact (Habsent eq_refl).
Defined.

(** C10: a second plugin whose name differs from [Old.esp] in case only
    does not replace the entry. *)
Lemma addPlugin_first_insertion_wins_witness :
  addPlugin fold_ascii (mkPlugin "OLD.esp" false true []) (plugins loaded_game) =
    plugins loaded_game ∧
  registry_keyed fold_ascii
    (addPlugin fold_ascii (mkPlugin "OLD.esp" false true []) (plugins loaded_game)).
Proof.
  destruct (addPlugin_first_insertion_wins fold_ascii has_plugin_extension parse_by_name
              (mkPlugin "OLD.esp" false true []) (plugins loaded_game))
    as (Hpresent & _ & Hkeyed).
  split.
  - apply Hpresent. exists old_plugin. reflexivity.
  - apply Hkeyed. by_computation.
Defined.

(** ** More of the code at concrete inputs *)

(** Two plugins in two lanes, either thread first: the same outcome. *)
Lemma LoadPlugins_schedule_independent_witness :
  LoadPlugins_sched fold_ascii has_plugin_extension parse_by_name false pair_directory
    ["New.esp"; "Good.esp"] loaded_game =
  LoadPlugins_sched fold_ascii has_plugin_extension parse_by_name false pair_directory
    ["Good.esp"; "New.esp"] loaded_game.
Proof.
  apply (LoadPlugins_schedule_independent fold_ascii has_plugin_extension parse_by_name
           false 2 pair_directory loaded_game).
  - intros n1 n2 v1 v2 Hn1 Hn2 Hc1 Hc2 Hkey.
    apply list_elem_of_In in Hn1, Hn2. vm_compute in Hn1, Hn2.
    destruct Hn1 as [<-|[<-|[]]], Hn2 as [<-|[<-|[]]];
      vm_compute in Hc1, Hc2; injection Hc1 as <-; injection Hc2 as <-;
      first [reflexivity | vm_compute in Hkey; discriminate Hkey].
  - exists ["New.esp"; "Good.esp"]. split; [|reflexivity].
    apply (Interleave_turn _ 0 "New.esp" []); [reflexivity|].
    apply (Interleave_turn _ 1 "Good.esp" []); [reflexivity|].
    constructor. repeat constructor.
  - exists ["Good.esp"; "New.esp"]. split; [|reflexivity].
    apply (Interleave_turn _ 1 "Good.esp" []); [reflexivity|].
    apply (Interleave_turn _ 0 "New.esp" []); [reflexivity|].
    constructor. repeat constructor.
Defined.

(** [Blank.esp] and [BLANK.ESP] in one directory: the registry can come to
    hold the one or the other. *)
Lemma LoadPlugins_race_witness :
  LoadPlugins fold_ascii has_plugin_extension parse_by_name false 2 case_directory
    empty_game
    (Completed (set_plugins empty_game
                  {[ "blank.esp" := mkPlugin "Blank.esp" true false [] ]} true)) ∧
  LoadPlugins fold_ascii has_plugin_extension parse_by_name false 2 case_directory
    empty_game
    (Completed (set_plugins empty_game
                  {[ "blank.esp" := mkPlugin "BLANK.ESP" true false [] ]} true)).
Proof.
  destruct (LoadPlugins_race fold_ascii has_plugin_extension parse_by_name false 2
              case_directory empty_game "Blank.esp" "BLANK.ESP"
              (mkPlugin "Blank.esp" true false []) (mkPlugin "BLANK.ESP" true false [])
              eq_refl (le_n 2) eq_refl eq_refl eq_refl eq_refl)
    as (Hfirst & Hsecond & _).
  split; [exact Hfirst|exact Hsecond].
Defined.

(** A load of the headers and then a full load of the same directory: the
    flag says fully loaded, the registry is the one of the first load. *)
Lemma LoadPlugins_again_keeps_records_witness :
  ∃ g2, LoadPlugins_seq fold_ascii has_plugin_extension parse_by_name false 3
          new_directory
          (set_plugins empty_game
             {[ "new.esp" := mkPlugin "New.esp" true false [] ]} false) =
        Completed g2 ∧
        plugins g2 = {[ "new.esp" := mkPlugin "New.esp" true false [] ]} ∧
        ArePluginsFullyLoaded g2 = true.
Proof.
  destruct (LoadPlugins_again_keeps_records fold_ascii has_plugin_extension
              parse_by_name none_active true false 1 3 new_directory empty_game
              (set_plugins empty_game
                 {[ "new.esp" := mkPlugin "New.esp" true false [] ]} false)
              (LoadPlugins_seq fold_ascii has_plugin_extension parse_by_name false 3
                 new_directory
                 (set_plugins empty_game
                    {[ "new.esp" := mkPlugin "New.esp" true false [] ]} false)))
    as (g2 & Ho & Hreg & Hflag & _).
  - vm_compute. discriminate.
  - vm_compute. repeat constructor.
  - intros name v v' Hv Hv'.
    change (parse_by_name name false) with (parse_by_name name true) in Hv'.
    congruence.
  - exists ["New.esp"]. split; [|reflexivity].
    apply (Interleave_turn _ 0 "New.esp" []); [reflexivity|].
    constructor. repeat constructor.
  - apply LoadPlugins_seq_run.
  - exists g2. split; [exact Ho|]. split; [exact Hreg|exact Hflag].
Defined.

(** Five plugins in two lanes: three and two. *)
Lemma lanes_balanced_witness :
  lanes_of has_plugin_extension 2 five_plugins =
    [["A.esp"; "C.esp"; "E.esp"]; ["B.esm"; "D.esp"]] ∧
  length ["B.esm"; "D.esp"] ≤ length ["A.esp"; "C.esp"; "E.esp"] ∧
  length ["A.esp"; "C.esp"; "E.esp"] ≤ S (length ["B.esm"; "D.esp"]) ∧
  Forall (λ lane : list string, lane ≠ []) (lanes_of has_plugin_extension 2 five_plugins).
Proof.
  destruct (lanes_balanced has_plugin_extension 2 five_plugins) as (Heven & Hfull & _).
  split; [reflexivity|].
  destruct (Heven 0 1 ["A.esp"; "C.esp"; "E.esp"] ["B.esm"; "D.esp"]
              eq_refl eq_refl (le_S 0 0 (le_n 0))) as [Hle Hge].
  split; [exact Hle|]. split; [exact Hge|].
  apply Hfull. vm_compute. discriminate.
Defined.

(** Two plugins of 50 bytes stay in the order of the listing, after the
    one of 20 bytes. *)
Lemma same_size_sorted :
  sizeMap_of has_plugin_extension same_size_directory =
    [(20%Z, "M.esp"); (50%Z, "Z.esp"); (50%Z, "A.esp")].
Proof. reflexivity. Qed.

(** [C.esp.ghost] of the example directory is a candidate by the name
    [C.esp]. *)
Lemma ghosted_plugin_keeps_name_witness :
  trim_ghost "C.esp.ghost" = "C.esp" ∧
  "C.esp" ∈ candidates has_plugin_extension five_plugins.
Proof.
  apply (ghosted_plugin_keeps_name has_plugin_extension five_plugins
           {| d_name := "C.esp.ghost"; d_regular := true; d_size := 300 |}
           "C.esp" ".ghost").
  - apply list_elem_of_In. do 3 right. left. reflexivity.
  - reflexivity.
  - reflexivity.
  - reflexivity.
Defined.

(** The three plugins of the example load order: [B.esp.ghost] and [C.esp]
    are moved to one and two minutes after [A.esp]; [notes.txt] is not
    touched. *)
Lemma RedatePlugins_frame_witness :
  RedatePlugins 2 int64_max 2 redate_game redate_files = Some redated_files ∧
  redated_files !! "notes.txt" = redate_files !! "notes.txt" ∧
  RedatePlugins 2 int64_max 1 redate_game redate_files = Some redate_files.
Proof.
  assert (RedatePlugins 2 int64_max 2 redate_game redate_files = Some redated_files)
    as Hre by (vm_compute; reflexivity).
  destruct (RedatePlugins_frame 2 int64_max 2 redate_game redate_files redated_files Hre)
    as (_ & Hframe & _).
  split; [exact Hre|]. split.
  - apply Hframe. by_computation.
  - reflexivity.
Defined.

Lemma RedatePlugins_orders_times_witness :
  ∃ files', RedatePlugins 2 int64_max 2 redate_game redate_files = Some files' ∧
            StronglySorted Z.le (0%Z :: (files_of files' (loadOrder redate_game)).*2).
Proof.
  destruct (RedatePlugins_orders_times 2 int64_max redate_game redate_files 300)
    as (files' & Hre & _ & Hsorted).
  - by_computation.
  - apply (bool_decide_unpack (map_Forall (λ _ t, (t ≤ 300)%Z) redate_files)).
    vm_compute. exact I.
  - vm_compute. discriminate.
  - vm_compute. discriminate.
  - exists files'. split; [exact Hre|exact Hsorted].
Defined.

Lemma RedatePlugins_in_order_untouched_witness :
  RedatePlugins 2 int64_max 2 redate_game redated_files = Some redated_files.
Proof.
  apply RedatePlugins_in_order_untouched. by_computation.
Defined.

Lemma RedatePlugins_idempotent_witness :
  RedatePlugins 2 int64_max 2 redate_game redate_files = Some redated_files ∧
  RedatePlugins 2 int64_max 2 redate_game redated_files = Some redated_files.
Proof.
  assert (RedatePlugins 2 int64_max 2 redate_game redate_files = Some redated_files)
    as Hre by (vm_compute; reflexivity).
  split; [exact Hre|].
  apply (RedatePlugins_idempotent 2 int64_max 2 redate_game redate_files redated_files);
    [|exact Hre].
  by_computation.
Defined.

(** The check of the test [Sort] is met by the first three plugins of the
    expected order alone, and by no plugin at all. *)
Lemma expect_std_equal_accepts_front_part_witness :
  expect_std_equal name_is (take 3 skyrim_plugins) = Some true ∧
  expect_std_equal name_is [] = Some true ∧
  expect_eq GetExpectedSortedOrder (take 3 skyrim_plugins) = false.
Proof.
  destruct (expect_std_equal_accepts_front_part name_is (take 3 skyrim_plugins))
    as ([_ Hfront] & _ & _ & _).
  destruct (expect_std_equal_accepts_front_part name_is [])
    as (_ & _ & Hempty & _).
  split; [|split; [exact (Hempty eq_refl)|reflexivity]].
  apply Hfront. split; [vm_compute; repeat constructor|]. by_computation.
Defined.

